(** * CollecteBalle, top camera: ball tracker and robot pose detector

    A shallow embedding of [top_camera/terrain_balls.py] (the ball tracker),
    [top_camera/ball2.py] (the [Ball] record) and
    [top_camera/robot_detector.py] (the two-marker pose detector), with the
    properties of the design document stated over it.

    Conventions.
    - Pixel coordinates are Python [int]s ([int(cx)], [int(cy)]): [Z].
      A detection [[int(cx), int(cy)]] is a pair [Z * Z].
    - Counters and track identifiers ([nb_balls], [Ball.id]) are [nat].
    - Time stamps are [Z] (their unit is not fixed by the code).
    - Python exceptions are explicit: a call yields the state it leaves
      behind together with either its value or the exception raised.
    - The marker detector computes on floats; they are idealised as the
      real numbers [R].
    - OpenCV (segmentation, contour extraction, drawing) and the path
      planner are outside of the embedding: the tracker starts from the
      list [ball_centers], the marker detector from the list [contours]. *)

From Stdlib Require Import ZArith List Bool Arith Lia.
From Stdlib Require Import Reals Lra.
From Stdlib Require Import Permutation.
Import ListNotations.

(* ------------------------------------------------------------------ *)
(** ** Python values shared by the two components *)

Inductive exn : Type :=
| UnboundLocalError
| IndexError
| TypeError.

(** Outcome of a call: a value or a raised exception. *)
Inductive outcome (A : Type) : Type :=
| Returns (a : A)
| Raises (e : exn).

Arguments Returns {A} a.
Arguments Raises {A} e.

Definition point : Type := (Z * Z)%type.

(** [l.pop(k)] for an index [k] within range: the list without its
    element at [k]. *)
Fixpoint pop {A : Type} (k : nat) (l : list A) : list A :=
  match l, k with
  | [], _ => []
  | _ :: l', O => l'
  | x :: l', S k' => x :: pop k' l'
  end.

(** [l[i] = v] for an index within range. *)
Fixpoint set_nth {A : Type} (i : nat) (v : A) (l : list A) : list A :=
  match l, i with
  | [], _ => []
  | _ :: l', O => v :: l'
  | x :: l', S i' => x :: set_nth i' v l'
  end.

(* ------------------------------------------------------------------ *)
(** ** [Ball] (ball2.py) *)

Module Ball.

Record t : Type := mk {
  time0 : Z;
  elapsedTime : Z;
  score : Z;
  position : point;
  id : nat
}.

(** [Ball.__init__(self, id, timeStamp, X)] *)
Definition __init__ (id : nat) (timeStamp : Z) (X : point) : t :=
  {| time0 := timeStamp; elapsedTime := 0; score := 0;
     position := X; id := id |}.

(** Modelled from the spec: [terrain_balls.py] imports [Ball] from a
    module [ball] that is not part of the sources and calls its
    [set_position] and [set_time]; they are taken to be the setters
    [get_new_position] and [get_new_time] of the [Ball] of [ball2.py]
    ("assign that detection's coordinates as the track's new position"). *)
Definition set_position (b : t) (X : point) : t :=
  {| time0 := time0 b; elapsedTime := elapsedTime b; score := score b;
     position := X; id := id b |}.

(** Modelled from the spec: [set_time] of the same missing module, taken
    to be [get_new_time] of [ball2.py]
    ([self.elapsedTime = timeStamp - self.time0]). *)
Definition set_time (b : t) (timeStamp : Z) : t :=
  {| time0 := time0 b; elapsedTime := (timeStamp - time0 b)%Z;
     score := score b; position := position b; id := id b |}.

End Ball.

(* ------------------------------------------------------------------ *)
(** ** [TerrainBalls] (terrain_balls.py) *)

Module TerrainBalls.

Record t : Type := mk {
  time : Z;
  score : Z;
  balls : list Ball.t;
  nb_balls : nat
}.

(** [TerrainBalls.__init__(self, timeStamp)], up to the camera
    subscription. *)
Definition __init__ (timeStamp : Z) : t :=
  {| time := timeStamp; score := 0; balls := []; nb_balls := 0 |}.

(** The radicand of
    [n = np.sqrt((c[0] - p[0]) ** 2 + (c[1] - p[1]) ** 2)].
    The float that [np.sqrt] returns is idealised as the real square
    root, which is strictly increasing: the test [n < min] of the scan is
    carried out on radicands, an integer comparison
    (lemmas [sqrt_lt_radicand] and [sqrt_lt_5000] below). *)
Definition sqdist (c p : point) : Z :=
  ((fst c - fst p) ^ 2 + (snd c - snd p) ^ 2)%Z.

(** [min = 5000], as a radicand. *)
Definition min0 : Z := (5000 ^ 2)%Z.

(** The loop [for i in range(len(ball_centers))] of [_find_match], from
    index [i] on: [min] is the running minimum and [closest_ball] is
    [None] as long as the local variable has not been bound. *)
Fixpoint scan (p : point) (ball_centers : list point) (i : nat)
         (min : Z) (closest_ball : option nat) : option nat :=
  match ball_centers with
  | [] => closest_ball
  | c :: rest =>
      let n := sqdist c p in
      if (n <? min)%Z
      then scan p rest (S i) n (Some i)
      else scan p rest (S i) min closest_ball
  end.

(** [_find_match(self, ball, ball_centers)]: [-1] on an empty list;
    otherwise [return closest_ball], which raises [UnboundLocalError]
    when no iteration assigned it. *)
Definition _find_match (ball : Ball.t) (ball_centers : list point)
  : outcome Z :=
  match ball_centers with
  | [] => Returns (-1)%Z
  | _ :: _ =>
      match scan (Ball.position ball) ball_centers 0 min0 None with
      | Some closest_ball => Returns (Z.of_nat closest_ball)
      | None => Raises UnboundLocalError
      end
  end.

(** The filter loop of [_detect_balls]:
<<
    for i in range(self.nb_balls):
        k = self._find_match(self.balls[i], ball_centers)
        if k != -1:
            self.balls[i].set_position(ball_centers[k])
            ball_centers.pop(k)
>>
    over the indices [range_], on the mutable lists [balls] and
    [ball_centers].  The lists it returns are the ones in place when the
    loop ends or when an exception leaves it. *)
Fixpoint filter_loop (range_ : list nat) (balls : list Ball.t)
         (ball_centers : list point)
  : list Ball.t * list point * outcome unit :=
  match range_ with
  | [] => (balls, ball_centers, Returns tt)
  | i :: range' =>
      match nth_error balls i with
      | None => (balls, ball_centers, Raises IndexError)
      | Some b =>
          match _find_match b ball_centers with
          | Raises e => (balls, ball_centers, Raises e)
          | Returns k =>
              if (k =? -1)%Z
              then filter_loop range' balls ball_centers
              else
                match nth_error ball_centers (Z.to_nat k) with
                | None => (balls, ball_centers, Raises IndexError)
                | Some c =>
                    filter_loop range'
                      (set_nth i (Ball.set_position b c) balls)
                      (pop (Z.to_nat k) ball_centers)
                end
          end
      end
  end.

(** The growth loop of [_detect_balls]:
<<
    for j in range(len(ball_centers)):
        self.nb_balls = self.nb_balls + 1
        self.balls.append(Ball(self.nb_balls, self.time, ball_centers[j]))
>>
*)
Fixpoint add_loop (ball_centers : list point) (s : t) : t :=
  match ball_centers with
  | [] => s
  | c :: rest =>
      let nb := nb_balls s + 1 in
      add_loop rest
        {| time := time s; score := score s;
           balls := balls s ++ [Ball.__init__ nb (time s) c];
           nb_balls := nb |}
  end.

(** [_detect_balls], from the list [ball_centers] that the segmentation
    of the terrain image produced, up to [b.set_time(self.time)] for
    every ball (drawing and path planning left out). *)
Definition _detect_balls (s : t) (ball_centers : list point)
  : t * outcome unit :=
  let n := length ball_centers in
  match filter_loop (seq 0 (nb_balls s)) (balls s) ball_centers with
  | (balls', _, Raises e) =>
      ({| time := time s; score := score s; balls := balls';
          nb_balls := nb_balls s |}, Raises e)
  | (balls', ball_centers', Returns _) =>
      let s1 := {| time := time s; score := score s; balls := balls';
                   nb_balls := nb_balls s |} in
      let s2 := if nb_balls s1 <? n then add_loop ball_centers' s1 else s1 in
      ({| time := time s2; score := score s2;
          balls := map (fun b => Ball.set_time b (time s2)) (balls s2);
          nb_balls := nb_balls s2 |}, Returns tt)
  end.

(** [_update(self, img, timeStamp)], with [ball_centers] the detections
    of [img]. *)
Definition _update (s : t) (ball_centers : list point) (timeStamp : Z)
  : t * outcome unit :=
  _detect_balls
    {| time := timeStamp; score := score s; balls := balls s;
       nb_balls := nb_balls s |}
    ball_centers.

(** The states the tracker goes through: the initial one, and the one
    each frame leaves behind (whether or not the call raised). *)
Inductive reachable : t -> Prop :=
| reach_init : forall timeStamp, reachable (__init__ timeStamp)
| reach_update : forall s ball_centers timeStamp,
    reachable s -> reachable (fst (_update s ball_centers timeStamp)).

(** Frames fed one after the other, stopping at the first exception. *)
Fixpoint run (s : t) (frames : list (list point * Z)) : t * outcome unit :=
  match frames with
  | [] => (s, Returns tt)
  | (ball_centers, timeStamp) :: rest =>
      match _update s ball_centers timeStamp with
      | (s', Returns _) => run s' rest
      | (s', Raises e) => (s', Raises e)
      end
  end.

Definition ids (s : t) : list nat := map Ball.id (balls s).
Definition positions (s : t) : list point := map Ball.position (balls s).

End TerrainBalls.

(* ------------------------------------------------------------------ *)
(** ** [RobotDetector] (robot_detector.py) *)

(** [np.arctan2(y, x)] over the reals: the angle of the vector [(x, y)],
    in the interval from [-PI] to [PI]. *)
Definition arctan2 (y x : R) : R :=
  (if Rlt_dec 0 x then atan (y / x)
   else if Rlt_dec x 0 then
          if Rle_dec 0 y then atan (y / x) + PI else atan (y / x) - PI
   else if Rlt_dec 0 y then PI / 2
   else if Rlt_dec y 0 then - (PI / 2)
   else 0)%R.

Module RobotDetector.

(** The pose that the detector stores, and [data_updated_calls]: the
    arguments of each call of [self.data_updated_callback] so far, the
    latest first. *)
Record t : Type := mk {
  _position : list R;
  _heading : R;
  _timestamp : Z;
  data_updated_calls : list (list R * R * Z)
}.

(** [RobotDetector.__init__], up to the camera subscription. *)
Definition __init__ : t :=
  {| _position := [0; 0]%R; _heading := 0%R; _timestamp := 0%Z;
     data_updated_calls := [] |}.

Definition get_heading (s : t) : R := _heading s.
Definition get_position (s : t) : list R := _position s.

Section Detection.

(** What OpenCV provides: the contours that [cv.findContours] extracts
    from the thresholded mask of one colour range, and
    [cv.minEnclosingCircle], which gives the centre and the radius of
    the smallest circle around a contour. *)
Variable contour : Type.
Variable minEnclosingCircle : contour -> (R * R) * R.

(** [_detect_marker], from the contours found in the mask:
    [(cx, cy)] when [n_contours == 1], [(None, None)] otherwise. *)
Definition _detect_marker (contours : list contour)
  : option R * option R :=
  match contours with
  | [cnt] =>
      let '((cx, cy), radius) := minEnclosingCircle cnt in
      (Some cx, Some cy)
  | _ => (None, None)
  end.

(** [_camera_data_updated_callback(self, img, timestamp)], with the
    contours of the black (front) and of the blue (rear) mask of
    [img].  The test reads component [0] of each marker only; a
    subtraction on [None] would raise [TypeError]. *)
Definition _camera_data_updated_callback (s : t)
           (front_contours rear_contours : list contour) (timestamp : Z)
  : t * outcome unit :=
  let front_m_pos := _detect_marker front_contours in
  let rear_m_pos := _detect_marker rear_contours in
  match fst front_m_pos, fst rear_m_pos with
  | Some f0, Some r0 =>
      match snd front_m_pos, snd rear_m_pos with
      | Some f1, Some r1 =>
          let heading := arctan2 (f1 - r1)%R (f0 - r0)%R in
          let position := [r0; r1] in
          ({| _position := position; _heading := heading;
              _timestamp := timestamp;
              data_updated_calls :=
                (position, heading, timestamp) :: data_updated_calls s |},
           Returns tt)
      | _, _ => (s, Raises TypeError)
      end
  | _, _ => (s, Returns tt)
  end.

(** A marker is detected when its mask holds exactly one contour. *)
Definition detected (contours : list contour) : Prop :=
  length contours = 1.

(** One camera frame: front contours, rear contours, time stamp. *)
Definition frame : Type := (list contour * list contour * Z)%type.

(** The callback over successive frames. *)
Fixpoint run_frames (s : t) (frames : list frame) : t :=
  match frames with
  | [] => s
  | (front_contours, rear_contours, timestamp) :: rest =>
      run_frames
        (fst (_camera_data_updated_callback s front_contours
                rear_contours timestamp))
        rest
  end.

End Detection.

Arguments _detect_marker {contour} minEnclosingCircle contours.
Arguments _camera_data_updated_callback {contour} minEnclosingCircle
  s front_contours rear_contours timestamp.
Arguments detected {contour} contours.
Arguments run_frames {contour} minEnclosingCircle s frames.

End RobotDetector.

Module TB := TerrainBalls.
Module RD := RobotDetector.

(* ------------------------------------------------------------------ *)
(** ** Notions used to state the properties *)

(** The Euclidean distance that [_find_match] computes, as a real. *)
Definition euclid (c p : point) : R := sqrt (IZR (TB.sqdist c p)).

(** The filter loop by recursion on the tracks still to be visited: the
    form [TB.filter_loop] takes when [nb_balls] is the length of [balls]
    (lemma [filter_loop_seq]). *)
Fixpoint match_all (todo : list Ball.t) (ball_centers : list point)
  : list Ball.t * list point * outcome unit :=
  match todo with
  | [] => ([], ball_centers, Returns tt)
  | b :: todo' =>
      match TB._find_match b ball_centers with
      | Raises e => (todo, ball_centers, Raises e)
      | Returns k =>
          if (k =? -1)%Z
          then let '(t, c, o) := match_all todo' ball_centers in (b :: t, c, o)
          else
            match nth_error ball_centers (Z.to_nat k) with
            | None => (todo, ball_centers, Raises IndexError)
            | Some c =>
                let '(t, c', o) :=
                  match_all todo' (pop (Z.to_nat k) ball_centers) in
                (Ball.set_position b c :: t, c', o)
            end
      end
  end.

(** The counter [nb_balls] agrees with the list [balls]. *)
Definition counted (s : TB.t) : Prop := TB.nb_balls s = length (TB.balls s).

Definition point_eqb (p q : point) : bool :=
  ((fst p =? fst q) && (snd p =? snd q))%Z.

(** Number of positions at which two lists of points agree. *)
Fixpoint agree (ps qs : list point) : nat :=
  match ps, qs with
  | p :: ps', q :: qs' => (if point_eqb p q then 1 else 0) + agree ps' qs'
  | _, _ => 0
  end.

(** Number of tracks that have the same position in [s] and in [s']. *)
Definition unchanged_count (s s' : TB.t) : nat :=
  agree (TB.positions s) (TB.positions s').

(** Every detection is closer than 5000 to every track. *)
Definition all_within (balls : list Ball.t) (ball_centers : list point)
  : Prop :=
  Forall (fun b =>
            Forall (fun c => (TB.sqdist c (Ball.position b) < TB.min0)%Z)
                   ball_centers)
         balls.

(** "No shrink", as the design document words it: with fewer detections
    than tracks, the number of tracks stays and exactly [m - n] of them
    keep their position. *)
Definition no_shrink_exact (s : TB.t) (ball_centers : list point)
           (timeStamp : Z) : Prop :=
  let s' := fst (TB._update s ball_centers timeStamp) in
  length ball_centers < length (TB.balls s) ->
  length (TB.balls s') = length (TB.balls s) /\
  unchanged_count s s' = length (TB.balls s) - length ball_centers.

(** The tracker after a first frame with one ball at the origin. *)
Definition one_ball : TB.t := fst (TB.run (TB.__init__ 0) [([(0, 0)], 1)]%Z).

(** The tracker after a first frame with balls at (0,0) and (10,10). *)
Definition two_balls : TB.t :=
  fst (TB.run (TB.__init__ 0) [([(0, 0); (10, 10)], 1)]%Z).

(** A contour given by its enclosing circle, for concrete frames. *)
Definition circle : Type := ((R * R) * R)%type.
Definition circle_of (c : circle) : (R * R) * R := c.

(* ------------------------------------------------------------------ *)
(** ** The earlier tracker (ball2.py) *)

(** [ball2.py] holds its own [Ball] and an earlier [TerrainBalls].  The
    state has the fields of [TB.t]; [Ball] is the record of module [Ball].
    As for [terrain_balls.py], the embedding starts from [ball_centers]
    and leaves the OpenCV calls (thresholding, drawing, display) out. *)
Module TerrainBalls2.

(** [Ball.get_new_position(self, X)] *)
Definition get_new_position (b : Ball.t) (X : point) : Ball.t :=
  {| Ball.time0 := Ball.time0 b; Ball.elapsedTime := Ball.elapsedTime b;
     Ball.score := Ball.score b; Ball.position := X; Ball.id := Ball.id b |}.

(** [Ball.get_new_time(self, timeStamp)] *)
Definition get_new_time (b : Ball.t) (timeStamp : Z) : Ball.t :=
  {| Ball.time0 := Ball.time0 b;
     Ball.elapsedTime := (timeStamp - Ball.time0 b)%Z;
     Ball.score := Ball.score b; Ball.position := Ball.position b;
     Ball.id := Ball.id b |}.

(** [findMatch(self, ball, ball_centers)]: [-1] on an empty list, else the
    scan from [min = 5000] and [return closest_ball]. *)
Definition findMatch (ball : Ball.t) (ball_centers : list point)
  : outcome Z :=
  match ball_centers with
  | [] => Returns (-1)%Z
  | _ :: _ =>
      match TB.scan (Ball.position ball) ball_centers 0 TB.min0 None with
      | Some closest_ball => Returns (Z.of_nat closest_ball)
      | None => Raises UnboundLocalError
      end
  end.

(** The loop of the branch [self.nb_balls == n] of [detect_balls]:
<<
    for i in range(self.nb_balls):
        k = self.findMatch(self.balls[i], ball_centers)
        if k != -1:
            self.balls[i].get_new_position(ball_centers[k])
            ball_centers.pop(k)
>>
*)
Fixpoint match_loop (range_ : list nat) (balls : list Ball.t)
         (ball_centers : list point)
  : list Ball.t * list point * outcome unit :=
  match range_ with
  | [] => (balls, ball_centers, Returns tt)
  | i :: range' =>
      match nth_error balls i with
      | None => (balls, ball_centers, Raises IndexError)
      | Some b =>
          match findMatch b ball_centers with
          | Raises e => (balls, ball_centers, Raises e)
          | Returns k =>
              if (k =? -1)%Z
              then match_loop range' balls ball_centers
              else
                match nth_error ball_centers (Z.to_nat k) with
                | None => (balls, ball_centers, Raises IndexError)
                | Some c =>
                    match_loop range'
                      (set_nth i (get_new_position b c) balls)
                      (pop (Z.to_nat k) ball_centers)
                end
          end
      end
  end.

(** The loop of the branch [self.nb_balls < n]:
<<
    for j in range(len(ball_centers)):
        self.nb_balls = self.nb_balls + 1
        self.balls.append(Ball(self.nb_balls, self.time, ball_centers[j]))
>>
*)
Fixpoint new_loop (ball_centers : list point) (s : TB.t) : TB.t :=
  match ball_centers with
  | [] => s
  | c :: rest =>
      let nb := TB.nb_balls s + 1 in
      new_loop rest
        {| TB.time := TB.time s; TB.score := TB.score s;
           TB.balls := TB.balls s ++ [Ball.__init__ nb (TB.time s) c];
           TB.nb_balls := nb |}
  end.

(** [for b in self.balls: b.get_new_time(self.time)] *)
Definition time_loop (s : TB.t) : TB.t :=
  {| TB.time := TB.time s; TB.score := TB.score s;
     TB.balls := map (fun b => get_new_time b (TB.time s)) (TB.balls s);
     TB.nb_balls := TB.nb_balls s |}.

(** [detect_balls], from [n = len(ball_centers)] on. *)
Definition detect_balls (s : TB.t) (ball_centers : list point)
  : TB.t * outcome unit :=
  let n := length ball_centers in
  if TB.nb_balls s =? n then
    match match_loop (seq 0 (TB.nb_balls s)) (TB.balls s) ball_centers with
    | (balls', _, Raises e) =>
        ({| TB.time := TB.time s; TB.score := TB.score s;
            TB.balls := balls'; TB.nb_balls := TB.nb_balls s |}, Raises e)
    | (balls', _, Returns _) =>
        (time_loop {| TB.time := TB.time s; TB.score := TB.score s;
                      TB.balls := balls'; TB.nb_balls := TB.nb_balls s |},
         Returns tt)
    end
  else if TB.nb_balls s <? n then
    (time_loop (new_loop ball_centers s), Returns tt)
  else (time_loop s, Returns tt).

(** [update(self, img, timeStamp)], with [ball_centers] the detections of
    [img]. *)
Definition update (s : TB.t) (ball_centers : list point) (timeStamp : Z)
  : TB.t * outcome unit :=
  detect_balls
    {| TB.time := timeStamp; TB.score := TB.score s; TB.balls := TB.balls s;
       TB.nb_balls := TB.nb_balls s |}
    ball_centers.

(** The states of the earlier tracker. *)
Inductive reachable : TB.t -> Prop :=
| reach_init : forall timeStamp, reachable (TB.__init__ timeStamp)
| reach_update : forall s ball_centers timeStamp,
    reachable s -> reachable (fst (update s ball_centers timeStamp)).

End TerrainBalls2.

Module TB2 := TerrainBalls2.

(* ------------------------------------------------------------------ *)
(** ** Further notions *)

(** The test [n_contours == 1], as a boolean. *)
Definition detectedb {contour : Type} (contours : list contour) : bool :=
  length contours =? 1.

(** A frame in which both markers are detected. *)
Definition both_detected {contour : Type} (fr : RD.frame contour) : bool :=
  detectedb (fst (fst fr)) && detectedb (snd (fst fr)).

(** The pose that the pull accessors give. *)
Definition pose (s : RD.t) : list R * R * Z :=
  (RD.get_position s, RD.get_heading s, RD._timestamp s).

(* ------------------------------------------------------------------ *)
(** ** Lists *)

Lemma pop_length {A : Type} (l : list A) : forall k x,
  nth_error l k = Some x -> S (length (pop k l)) = length l.
Proof.
  induction l as [|a l IH]; intros [|k] x H; simpl in *; try discriminate.
  - reflexivity.
  - f_equal. eapply IH; eauto.
Qed.

Lemma pop_In {A : Type} (l : list A) : forall k x, In x (pop k l) -> In x l.
Proof.
  induction l as [|a l IH]; intros [|k] x H; simpl in *; auto.
  destruct H as [H|H]; eauto.
Qed.

Lemma set_nth_app {A : Type} (done : list A) (b b' : A) (todo : list A) :
  set_nth (length done) b' (done ++ b :: todo) = done ++ b' :: todo.
Proof. induction done as [|a done IH]; simpl; [reflexivity | now f_equal]. Qed.

Lemma nth_error_middle {A : Type} (done : list A) (b : A) (todo : list A) :
  nth_error (done ++ b :: todo) (length done) = Some b.
Proof. induction done as [|a done IH]; simpl; auto. Qed.

Lemma point_eqb_refl p : point_eqb p p = true.
Proof. unfold point_eqb. now rewrite !Z.eqb_refl. Qed.

Lemma agree_refl ps : agree ps ps = length ps.
Proof.
  induction ps as [|p ps IH]; simpl; [reflexivity|].
  now rewrite point_eqb_refl, IH.
Qed.

Lemma agree_skipn : forall n ps qs,
  length ps = length qs -> skipn n ps = skipn n qs ->
  length ps - n <= agree ps qs.
Proof.
  induction n as [|n IH]; intros ps qs Hl Hs.
  - simpl in Hs. subst qs. rewrite agree_refl. lia.
  - destruct ps as [|p ps], qs as [|q qs]; simpl in *; try lia.
    assert (length ps - n <= agree ps qs) by (apply IH; [lia | exact Hs]).
    destruct (point_eqb p q); lia.
Qed.

(* ------------------------------------------------------------------ *)
(** ** The scan of [_find_match] *)

(** The distance test on radicands is the test on the square roots. *)
Lemma sqrt_lt_radicand (a b : Z) :
  (0 <= a)%Z -> (0 <= b)%Z -> (sqrt (IZR a) < sqrt (IZR b))%R <-> (a < b)%Z.
Proof.
  intros Ha Hb. split; intro H.
  - apply lt_IZR. apply sqrt_lt_0_alt. exact H.
  - apply sqrt_lt_1_alt. split; [apply IZR_le; exact Ha | apply IZR_lt; exact H].
Qed.

Lemma sqdist_nonneg c p : (0 <= TB.sqdist c p)%Z.
Proof.
  unfold TB.sqdist.
  rewrite !Z.pow_2_r.
  pose proof (Z.square_nonneg (fst c - fst p)).
  pose proof (Z.square_nonneg (snd c - snd p)). lia.
Qed.

Lemma sqrt_min0 : sqrt (IZR TB.min0) = 5000%R.
Proof.
  unfold TB.min0. replace (IZR (5000 ^ 2)) with (5000 * 5000)%R.
  - apply sqrt_square. lra.
  - change (5000 ^ 2)%Z with (5000 * 5000)%Z. rewrite mult_IZR. reflexivity.
Qed.

(** [n < 5000] on a computed distance is [radicand < 5000 ** 2]. *)
Lemma sqrt_lt_5000 c p :
  (euclid c p < 5000)%R <-> (TB.sqdist c p < TB.min0)%Z.
Proof.
  unfold euclid. rewrite <- sqrt_min0.
  apply sqrt_lt_radicand; [apply sqdist_nonneg | unfold TB.min0; lia].
Qed.

Lemma euclid_lt c c' p :
  (euclid c p < euclid c' p)%R <-> (TB.sqdist c p < TB.sqdist c' p)%Z.
Proof. apply sqrt_lt_radicand; apply sqdist_nonneg. Qed.

Lemma euclid_le c c' p :
  (euclid c p <= euclid c' p)%R <-> (TB.sqdist c p <= TB.sqdist c' p)%Z.
Proof.
  split; intro H.
  - destruct (Z.le_gt_cases (TB.sqdist c p) (TB.sqdist c' p)) as [|Hgt]; auto.
    apply euclid_lt in Hgt. lra.
  - destruct (Rle_lt_dec (euclid c p) (euclid c' p)) as [|Hgt]; auto.
    apply euclid_lt in Hgt. lia.
Qed.

Lemma scan_spec (p : point) (cs : list point) : forall i min cl,
  (Forall (fun c => (min <= TB.sqdist c p)%Z) cs /\ TB.scan p cs i min cl = cl)
  \/
  (exists k c,
      nth_error cs k = Some c /\ TB.scan p cs i min cl = Some (i + k) /\
      (TB.sqdist c p < min)%Z /\
      (forall j c', nth_error cs j = Some c' ->
                    (TB.sqdist c p <= TB.sqdist c' p)%Z) /\
      (forall j c', j < k -> nth_error cs j = Some c' ->
                    (TB.sqdist c p < TB.sqdist c' p)%Z)).
Proof.
  induction cs as [|a cs IH]; intros i min cl.
  - left. split; [constructor | reflexivity].
  - cbn [TB.scan]. destruct (Z.ltb_spec (TB.sqdist a p) min) as [Hlt|Hge].
    + destruct (IH (S i) (TB.sqdist a p) (Some i))
        as [[Hall Heq] | (k & c & Hn & Hs & Hc & Hmin & Hfirst)].
      * right. exists 0, a. rewrite Heq, Nat.add_0_r.
        split; [reflexivity | split; [reflexivity | split; [exact Hlt | split]]].
        -- intros [|j] c' Hj; simpl in Hj.
           ++ inversion Hj; subst. lia.
           ++ rewrite Forall_forall in Hall. apply Hall.
              eapply nth_error_In; eauto.
        -- intros j c' Hj; lia.
      * right. exists (S k), c. rewrite Hs.
        split; [exact Hn | split; [f_equal; lia | split; [lia | split]]].
        -- intros [|j] c' Hj; simpl in Hj.
           ++ inversion Hj; subst. lia.
           ++ eauto.
        -- intros [|j] c' Hjk Hj; simpl in Hj.
           ++ inversion Hj; subst. lia.
           ++ apply Hfirst with j; [lia | auto].
    + destruct (IH (S i) min cl)
        as [[Hall Heq] | (k & c & Hn & Hs & Hc & Hmin & Hfirst)].
      * left. split; [constructor; auto | auto].
      * right. exists (S k), c. rewrite Hs.
        split; [exact Hn | split; [f_equal; lia | split; [lia | split]]].
        -- intros [|j] c' Hj; simpl in Hj.
           ++ inversion Hj; subst. lia.
           ++ eauto.
        -- intros [|j] c' Hjk Hj; simpl in Hj.
           ++ inversion Hj; subst. lia.
           ++ apply Hfirst with j; [lia | auto].
Qed.

(* ------------------------------------------------------------------ *)
(** ** [_find_match] *)

Lemma find_match_far (b : Ball.t) (cs : list point) :
  cs <> [] ->
  Forall (fun c => (TB.min0 <= TB.sqdist c (Ball.position b))%Z) cs ->
  TB._find_match b cs = Raises UnboundLocalError.
Proof.
  intros Hne Hfar. unfold TB._find_match.
  destruct cs as [|c0 cs0]; [congruence|].
  destruct (scan_spec (Ball.position b) (c0 :: cs0) 0 TB.min0 None)
    as [[_ Heq] | (k & c & Hn & _ & Hc & _)].
  - now rewrite Heq.
  - exfalso. rewrite Forall_forall in Hfar.
    apply nth_error_In in Hn. apply Hfar in Hn. lia.
Qed.

(** Within 5000 of some candidate, [_find_match] returns the index of a
    nearest candidate, the first one among equals. *)
Lemma find_match_near (b : Ball.t) (cs : list point) :
  Exists (fun c => (TB.sqdist c (Ball.position b) < TB.min0)%Z) cs ->
  exists k c,
    TB._find_match b cs = Returns (Z.of_nat k) /\
    nth_error cs k = Some c /\
    (forall j c', nth_error cs j = Some c' ->
       (TB.sqdist c (Ball.position b) <= TB.sqdist c' (Ball.position b))%Z) /\
    (forall j c', j < k -> nth_error cs j = Some c' ->
       (TB.sqdist c (Ball.position b) < TB.sqdist c' (Ball.position b))%Z).
Proof.
  intros Hex. unfold TB._find_match.
  destruct cs as [|c0 cs0]; [inversion Hex|].
  destruct (scan_spec (Ball.position b) (c0 :: cs0) 0 TB.min0 None)
    as [[Hall _] | (k & c & Hn & Hs & Hc & Hmin & Hfirst)].
  - exfalso. rewrite Exists_exists in Hex. destruct Hex as (x & Hin & Hx).
    rewrite Forall_forall in Hall. apply Hall in Hin. lia.
  - exists k, c. rewrite Hs. simpl. auto.
Qed.

(** What a returned value can be: [-1] on the empty list, a valid index
    otherwise. *)
Lemma find_match_returns (b : Ball.t) (cs : list point) (k : Z) :
  TB._find_match b cs = Returns k ->
  (cs = [] /\ k = (-1)%Z) \/
  (exists c, (0 <= k)%Z /\ nth_error cs (Z.to_nat k) = Some c).
Proof.
  unfold TB._find_match. destruct cs as [|c0 cs0].
  - intros H; inversion H; auto.
  - destruct (scan_spec (Ball.position b) (c0 :: cs0) 0 TB.min0 None)
      as [[_ Heq] | (i & c & Hn & Hs & _)].
    + rewrite Heq. discriminate.
    + rewrite Hs. simpl. intros H; inversion H; subst. right.
      exists c. rewrite Nat2Z.id. split; [lia | exact Hn].
Qed.

(* ------------------------------------------------------------------ *)
(** ** The filter loop *)

Lemma filter_loop_seq : forall todo done cs,
  TB.filter_loop (seq (length done) (length todo)) (done ++ todo) cs =
  let '(t, c, o) := match_all todo cs in (done ++ t, c, o).
Proof.
  induction todo as [|b todo IH]; intros done cs.
  - simpl. now rewrite app_nil_r.
  - cbn [length seq TB.filter_loop match_all].
    rewrite nth_error_middle.
    destruct (TB._find_match b cs) as [k|e]; [|reflexivity].
    destruct (k =? -1)%Z.
    + specialize (IH (done ++ [b]) cs).
      rewrite length_app, Nat.add_1_r, <- app_assoc in IH. simpl in IH.
      rewrite IH. destruct (match_all todo cs) as [[t c] o].
      now rewrite <- app_assoc.
    + destruct (nth_error cs (Z.to_nat k)) as [c|]; [|reflexivity].
      rewrite set_nth_app.
      specialize (IH (done ++ [Ball.set_position b c]) (pop (Z.to_nat k) cs)).
      rewrite length_app, Nat.add_1_r, <- app_assoc in IH. simpl in IH.
      rewrite IH.
      destruct (match_all todo (pop (Z.to_nat k) cs)) as [[t c'] o].
      now rewrite <- app_assoc.
Qed.

Lemma filter_loop_counted (s : TB.t) (cs : list point) :
  counted s ->
  TB.filter_loop (seq 0 (TB.nb_balls s)) (TB.balls s) cs =
  match_all (TB.balls s) cs.
Proof.
  intros H. rewrite H.
  pose proof (filter_loop_seq (TB.balls s) [] cs) as E. simpl in E.
  rewrite E. now destruct (match_all (TB.balls s) cs) as [[t c] o].
Qed.

(** The loop keeps every track and its identifier; a track beyond the
    number of detections is not touched; what is left of the pool
    comes from the pool. *)
Lemma match_all_shape : forall todo cs t c o,
  match_all todo cs = (t, c, o) ->
  length t = length todo /\
  map Ball.id t = map Ball.id todo /\
  skipn (length cs) t = skipn (length cs) todo /\
  (forall x, In x c -> In x cs).
Proof.
  induction todo as [|b todo IH]; intros cs t c o H.
  - simpl in H. inversion H; subst. now rewrite !skipn_nil.
  - cbn [match_all] in H.
    destruct (TB._find_match b cs) as [k|e] eqn:Hf.
    + apply find_match_returns in Hf.
      destruct Hf as [[-> ->] | (x & Hk & Hx)].
      * simpl in H. destruct (match_all todo []) as [[t0 c0] o0] eqn:Hm.
        inversion H; subst.
        destruct (IH _ _ _ _ Hm) as (Hl & Hi & Hs & Hin).
        simpl in *. repeat split; auto; now f_equal.
      * replace (k =? -1)%Z with false in H by (symmetry; apply Z.eqb_neq; lia).
        rewrite Hx in H.
        destruct (match_all todo (pop (Z.to_nat k) cs)) as [[t0 c0] o0] eqn:Hm.
        inversion H; subst.
        destruct (IH _ _ _ _ Hm) as (Hl & Hi & Hs & Hin).
        pose proof (pop_length _ _ _ Hx) as Hp.
        rewrite <- Hp. simpl. repeat split; auto; try now f_equal.
        intros y Hy. eapply pop_In; eauto.
    + inversion H; subst. auto.
Qed.

(** With every detection within 5000 of every track, the loop ends without
    an exception and leaves [n - m] detections ([0] when [n <= m]). *)
Lemma match_all_within : forall todo cs,
  all_within todo cs ->
  exists t c,
    match_all todo cs = (t, c, Returns tt) /\
    length c = length cs - length todo.
Proof.
  induction todo as [|b todo IH]; intros cs Hw.
  - exists [], cs. simpl. split; [reflexivity | lia].
  - inversion Hw as [|? ? Hb Hrest]; subst. cbn [match_all].
    destruct cs as [|c0 cs0].
    + simpl. destruct (IH [] Hrest) as (t & c & Hm & Hl).
      rewrite Hm. exists (b :: t), c. split; [reflexivity | simpl in *; lia].
    + destruct (find_match_near b (c0 :: cs0)) as (k & x & Hf & Hx & _).
      { inversion Hb; subst. now left. }
      rewrite Hf.
      replace (Z.of_nat k =? -1)%Z with false
        by (symmetry; apply Z.eqb_neq; lia).
      rewrite Nat2Z.id, Hx.
      destruct (IH (pop k (c0 :: cs0))) as (t & c & Hm & Hl).
      { unfold all_within in *. rewrite Forall_forall in *.
        intros b' Hb'. specialize (Hrest b' Hb').
        rewrite Forall_forall in *. intros y Hy. apply Hrest.
        eapply pop_In; eauto. }
      rewrite Hm. exists (Ball.set_position b x :: t), c.
      split; [reflexivity|].
      pose proof (pop_length _ _ _ Hx) as Hp. simpl in *. lia.
Qed.

(* ------------------------------------------------------------------ *)
(** ** The growth loop *)

Lemma add_loop_spec : forall cs s,
  exists news,
    TB.balls (TB.add_loop cs s) = TB.balls s ++ news /\
    map Ball.id news = seq (TB.nb_balls s + 1) (length cs) /\
    map Ball.position news = cs /\
    Forall (fun b => Ball.time0 b = TB.time s) news /\
    TB.nb_balls (TB.add_loop cs s) = TB.nb_balls s + length cs /\
    TB.time (TB.add_loop cs s) = TB.time s.
Proof.
  induction cs as [|c cs IH]; intros s.
  - exists []. simpl. rewrite app_nil_r. repeat split; auto.
  - cbn [TB.add_loop].
    destruct (IH {| TB.time := TB.time s; TB.score := TB.score s;
                    TB.balls := TB.balls s ++
                                [Ball.__init__ (TB.nb_balls s + 1) (TB.time s) c];
                    TB.nb_balls := TB.nb_balls s + 1 |})
      as (news & Hb & Hi & Hp & Ht & Hn & Htime).
    cbn [TB.balls TB.nb_balls TB.time] in *.
    exists (Ball.__init__ (TB.nb_balls s + 1) (TB.time s) c :: news).
    rewrite Hb, Hn, Htime, <- app_assoc. cbn [app map length seq].
    rewrite Hi, Hp. cbn [Ball.__init__ Ball.id Ball.position].
    split; [reflexivity|]. split; [f_equal; f_equal; lia|].
    split; [reflexivity|]. split; [constructor; auto|].
    split; [lia | reflexivity].
Qed.

(* ------------------------------------------------------------------ *)
(** ** One update of the tracker *)

Lemma set_time_id l ts :
  map Ball.id (map (fun b => Ball.set_time b ts) l) = map Ball.id l.
Proof. rewrite map_map. reflexivity. Qed.

Lemma set_time_position l ts :
  map Ball.position (map (fun b => Ball.set_time b ts) l) = map Ball.position l.
Proof. rewrite map_map. reflexivity. Qed.

Lemma set_time_time0 l ts t0 :
  Forall (fun b => Ball.time0 b = t0) l ->
  Forall (fun b => Ball.time0 b = t0) (map (fun b => Ball.set_time b ts) l).
Proof. intros H. rewrite Forall_map. exact H. Qed.

(** The tracks after an update: the visited tracks [olds], one per track
    that existed, followed by the new tracks [news]. *)
Lemma update_tracks (s : TB.t) (cs : list point) (ts : Z) :
  counted s ->
  exists t c o olds news,
    match_all (TB.balls s) cs = (t, c, o) /\
    snd (TB._update s cs ts) = o /\
    TB.balls (fst (TB._update s cs ts)) = olds ++ news /\
    map Ball.id olds = map Ball.id t /\
    map Ball.position olds = map Ball.position t /\
    TB.nb_balls (fst (TB._update s cs ts)) = TB.nb_balls s + length news /\
    map Ball.id news = seq (TB.nb_balls s + 1) (length news) /\
    Forall (fun b => Ball.time0 b = ts) news /\
    map Ball.position news =
      match o with
      | Returns _ => if TB.nb_balls s <? length cs then c else []
      | Raises _ => []
      end.
Proof.
  intros Hc. unfold TB._update, TB._detect_balls.
  cbn [TB.nb_balls TB.balls TB.time TB.score].
  rewrite (filter_loop_counted s cs Hc).
  destruct (match_all (TB.balls s) cs) as [[t c] o] eqn:Hm.
  exists t, c, o.
  destruct o as [[]|e].
  - cbn [TB.nb_balls]. destruct (TB.nb_balls s <? length cs) eqn:Hlt.
    + destruct (add_loop_spec c {| TB.time := ts; TB.score := TB.score s;
                                   TB.balls := t; TB.nb_balls := TB.nb_balls s |})
        as (news & Hb & Hi & Hp & Ht & Hn & Htime).
      cbn [TB.balls TB.nb_balls TB.time] in *.
      exists (map (fun b => Ball.set_time b ts) t),
             (map (fun b => Ball.set_time b ts) news).
      cbn [fst snd TB.balls TB.nb_balls].
      rewrite Hb, Hn, Htime, map_app, !set_time_id, !set_time_position.
      rewrite length_map, <- (length_map Ball.position news), Hp.
      repeat split; auto.
      apply set_time_time0; exact Ht.
    + exists (map (fun b => Ball.set_time b ts) t), [].
      cbn [fst snd TB.balls TB.nb_balls TB.time].
      rewrite app_nil_r, set_time_id, set_time_position.
      cbn [length map seq]. repeat split; auto.
  - exists t, []. cbn [fst snd TB.balls TB.nb_balls length map seq].
    rewrite app_nil_r. repeat split; auto.
Qed.

(** The counter follows the list through every update. *)
Lemma update_counted (s : TB.t) (cs : list point) (ts : Z) :
  counted s -> counted (fst (TB._update s cs ts)).
Proof.
  intros Hc.
  destruct (update_tracks s cs ts Hc)
    as (t & c & o & olds & news & Hm & _ & Hb & Hi & _ & Hn & _).
  apply match_all_shape in Hm. destruct Hm as (Hl & _).
  unfold counted. rewrite Hn, Hb, length_app, Hc.
  rewrite <- (length_map Ball.id olds), Hi, length_map, Hl. reflexivity.
Qed.

(** Identifiers of the tracks that existed stay; the new ones follow on. *)
Lemma update_ids (s : TB.t) (cs : list point) (ts : Z) :
  counted s ->
  exists k,
    TB.ids (fst (TB._update s cs ts)) = TB.ids s ++ seq (S (TB.nb_balls s)) k /\
    TB.nb_balls (fst (TB._update s cs ts)) = TB.nb_balls s + k.
Proof.
  intros Hc.
  destruct (update_tracks s cs ts Hc)
    as (t & c & o & olds & news & Hm & _ & Hb & Hi & _ & Hn & Hnews & _).
  apply match_all_shape in Hm. destruct Hm as (_ & Hid & _).
  exists (length news). unfold TB.ids.
  rewrite Hb, map_app, Hi, Hid, Hnews, Nat.add_1_r. auto.
Qed.

Lemma reachable_counted (s : TB.t) : TB.reachable s -> counted s.
Proof.
  induction 1 as [ts | s cs ts _ IH].
  - reflexivity.
  - apply update_counted; exact IH.
Qed.

Lemma reachable_ids (s : TB.t) :
  TB.reachable s -> TB.ids s = seq 1 (TB.nb_balls s).
Proof.
  induction 1 as [ts | s cs ts Hr IH].
  - reflexivity.
  - destruct (update_ids s cs ts (reachable_counted s Hr)) as (k & Hi & Hn).
    rewrite Hi, Hn, IH, seq_app. reflexivity.
Qed.

(** In a frame whose detections all lie within 5000 of every track, the
    update returns; it ends with [max m n] tracks, the [n - m] new ones
    placed on the detections that the filter loop left. *)
Lemma update_within (s : TB.t) (cs : list point) (ts : Z) :
  counted s -> all_within (TB.balls s) cs ->
  snd (TB._update s cs ts) = Returns tt /\
  length (TB.balls (fst (TB._update s cs ts))) =
    Nat.max (length (TB.balls s)) (length cs).
Proof.
  intros Hc Hw.
  destruct (update_tracks s cs ts Hc)
    as (t & c & o & olds & news & Hm & Ho & Hb & Hi & _ & _ & _ & _ & Hp).
  destruct (match_all_within (TB.balls s) cs Hw) as (t' & c' & Hm' & Hl).
  rewrite Hm in Hm'. injection Hm' as -> -> ->.
  apply match_all_shape in Hm. destruct Hm as (Hlt & _).
  split; [exact Ho|].
  rewrite Hb, length_app, <- (length_map Ball.id olds), Hi, length_map, Hlt.
  rewrite <- (length_map Ball.position news), Hp, Hc.
  destruct (Nat.ltb_spec (length (TB.balls s)) (length cs)); simpl; lia.
Qed.

(** One step of the filter loop on an empty pool: the track is left as
    it is. *)
Lemma filter_step_empty (b : Ball.t) (todo : list Ball.t) :
  match_all (b :: todo) [] = (b :: todo, [], Returns tt).
Proof.
  cbn [match_all TB._find_match]. simpl.
  assert (H : forall l, match_all l [] = (l, [], Returns tt)).
  { induction l as [|a l IH]; [reflexivity|].
    cbn [match_all TB._find_match]. simpl. now rewrite IH. }
  now rewrite H.
Qed.

(** One step of the filter loop with a candidate within 5000: the track
    moves to the nearest candidate of the pool, the first one among
    equals, and that candidate leaves the pool. *)
Lemma filter_step_near (b : Ball.t) (todo : list Ball.t) (cs : list point) :
  Exists (fun c => (euclid c (Ball.position b) < 5000)%R) cs ->
  exists k c,
    nth_error cs k = Some c /\
    (forall j c', nth_error cs j = Some c' ->
       (euclid c (Ball.position b) <= euclid c' (Ball.position b))%R) /\
    (forall j c', j < k -> nth_error cs j = Some c' ->
       (euclid c (Ball.position b) < euclid c' (Ball.position b))%R) /\
    match_all (b :: todo) cs =
      let '(t, c', o) := match_all todo (pop k cs) in
      (Ball.set_position b c :: t, c', o).
Proof.
  intros Hex.
  destruct (find_match_near b cs) as (k & c & Hf & Hn & Hmin & Hfirst).
  { rewrite Exists_exists in *. destruct Hex as (x & Hin & Hx).
    exists x. split; [exact Hin | now apply sqrt_lt_5000]. }
  exists k, c. split; [exact Hn|]. split; [|split].
  - intros j c' Hj. apply euclid_le. eauto.
  - intros j c' Hjk Hj. apply euclid_lt. eauto.
  - cbn [match_all]. rewrite Hf.
    replace (Z.of_nat k =? -1)%Z with false by (symmetry; apply Z.eqb_neq; lia).
    now rewrite Nat2Z.id, Hn.
Qed.

Lemma euclid_ge_5000 c p :
  (5000 <= euclid c p)%R <-> (TB.min0 <= TB.sqdist c p)%Z.
Proof.
  pose proof (sqrt_lt_5000 c p) as H. split; intro G.
  - destruct (Z.le_gt_cases TB.min0 (TB.sqdist c p)) as [|Hgt]; auto.
    apply H in Hgt. lra.
  - destruct (Rle_lt_dec 5000 (euclid c p)) as [|Hlt]; auto.
    apply H in Hlt. lia.
Qed.

(* ------------------------------------------------------------------ *)
(** ** Properties of the tracker *)

(** C1 (greedy nearest matching in creation order), at the input where the
    code departs from it: one track at (0,0) and the single remaining
    detection (5000,0), which is the nearest one.  The filter loop does
    not select it: [_find_match] raises [UnboundLocalError], the track
    keeps (0,0) and the update ends on the exception. *)
Theorem nearest_beyond_5000_not_selected :
  TB.positions one_ball = [(0, 0)]%Z /\
  TB.filter_loop (seq 0 (TB.nb_balls one_ball)) (TB.balls one_ball)
                 [(5000, 0)]%Z
  = (TB.balls one_ball, [(5000, 0)]%Z, Raises UnboundLocalError) /\
  TB.positions (fst (TB._update one_ball [(5000, 0)]%Z 2)) = [(0, 0)]%Z /\
  snd (TB._update one_ball [(5000, 0)]%Z 2) = Raises UnboundLocalError.
Proof. repeat split; reflexivity. Qed.

(** C2 (growth exactness), at the input where the code departs from it:
    one track and two detections, so [n = 2 > m = 1], both detections 5000
    or more away from the track.  The update raises in the filter loop,
    before the growth loop: no track is created. *)
Theorem no_growth_when_matching_raises :
  length (TB.balls one_ball) = 1 /\
  length [(5000, 0); (0, 6000)]%Z = 2 /\
  snd (TB._update one_ball [(5000, 0); (0, 6000)]%Z 2)
  = Raises UnboundLocalError /\
  length (TB.balls (fst (TB._update one_ball [(5000, 0); (0, 6000)]%Z 2))) = 1 /\
  TB.ids (fst (TB._update one_ball [(5000, 0); (0, 6000)]%Z 2)) = [1].
Proof. repeat split; reflexivity. Qed.

(** C3, as amended: tracks are never deleted.  For every update with
    [n] detections and [m > n] tracks the number of tracks is still [m];
    the last [m - n] tracks in identifier order keep their positions, so
    at least [m - n] tracks end the update with the position they had
    (a visited track whose detection lies where the track was keeps
    it too).  [counted] holds in every state the tracker goes through
    (lemma [reachable_counted]). *)
Theorem no_shrink_at_least (s : TB.t) (cs : list point) (ts : Z) :
  counted s ->
  length cs < length (TB.balls s) ->
  length (TB.balls (fst (TB._update s cs ts))) = length (TB.balls s) /\
  skipn (length cs) (TB.positions (fst (TB._update s cs ts)))
  = skipn (length cs) (TB.positions s) /\
  length (TB.balls s) - length cs
  <= unchanged_count s (fst (TB._update s cs ts)).
Proof.
  intros Hc Hlt.
  destruct (update_tracks s cs ts Hc)
    as (t & c & o & olds & news & Hm & _ & Hb & _ & Hpos & _ & _ & _ & Hp).
  apply match_all_shape in Hm. destruct Hm as (Hl & _ & Hs & _).
  assert (Hnews : news = []).
  { replace (TB.nb_balls s <? length cs) with false in Hp
      by (symmetry; apply Nat.ltb_ge; rewrite Hc; lia).
    destruct news; [reflexivity|]. destruct o; discriminate. }
  subst news. rewrite app_nil_r in Hb.
  assert (Hlen : length (TB.balls (fst (TB._update s cs ts)))
                 = length (TB.balls s)).
  { rewrite Hb, <- (length_map Ball.position olds), Hpos, length_map. exact Hl. }
  assert (Hskip : skipn (length cs) (TB.positions (fst (TB._update s cs ts)))
                  = skipn (length cs) (TB.positions s)).
  { unfold TB.positions. rewrite Hb, Hpos, !skipn_map. now rewrite Hs. }
  split; [exact Hlen|]. split; [exact Hskip|].
  unfold unchanged_count.
  rewrite <- (length_map Ball.position (TB.balls s)).
  apply agree_skipn.
  - unfold TB.positions. now rewrite !length_map.
  - symmetry. exact Hskip.
Qed.

Lemma no_shrink_at_least_witness :
  length (TB.balls (fst (TB._update two_balls [(3, 4)]%Z 2)))
  = length (TB.balls two_balls) /\
  skipn 1 (TB.positions (fst (TB._update two_balls [(3, 4)]%Z 2)))
  = skipn 1 (TB.positions two_balls) /\
  length (TB.balls two_balls) - 1
  <= unchanged_count two_balls (fst (TB._update two_balls [(3, 4)]%Z 2)).
Proof.
  apply (no_shrink_at_least two_balls [(3, 4)]%Z 2).
  - reflexivity.
  - simpl. lia.
Defined.

(** C3, as the design document states it, fails: two tracks at (0,0) and
    (10,10) and the single detection (0,0).  Track 1 is visited and set to
    (0,0), where it was; track 2 is not visited.  Both tracks keep their
    position, not exactly [m - n = 1] of them. *)
Lemma no_shrink_exact_fails : ~ no_shrink_exact two_balls [(0, 0)]%Z 2.
Proof.
  unfold no_shrink_exact. intros H.
  assert (Hlt : length [(0, 0)%Z] < length (TB.balls two_balls))
    by (simpl; lia).
  destruct (H Hlt) as [_ Hcount]. vm_compute in Hcount. discriminate.
Qed.

(** C4: over any sequence of updates the identifiers of the tracks are
    1, 2, ..., [nb_balls] in creation order (strictly increasing from 1,
    no repetition), and an update never changes the identifier of a track
    that exists: it leaves the identifiers in place and gives the new
    tracks the next integers. *)
Theorem ids_sequential (s : TB.t) :
  TB.reachable s ->
  TB.nb_balls s = length (TB.balls s) /\
  TB.ids s = seq 1 (TB.nb_balls s) /\
  NoDup (TB.ids s) /\
  forall cs ts, exists k,
    TB.ids (fst (TB._update s cs ts)) = TB.ids s ++ seq (S (TB.nb_balls s)) k.
Proof.
  intros Hr. pose proof (reachable_counted s Hr) as Hc.
  split; [exact Hc|]. split; [now apply reachable_ids|].
  split.
  - rewrite (reachable_ids s Hr). apply seq_NoDup.
  - intros cs ts. destruct (update_ids s cs ts Hc) as (k & Hk & _).
    exists k. exact Hk.
Qed.

Lemma ids_sequential_witness :
  TB.nb_balls two_balls = length (TB.balls two_balls) /\
  TB.ids two_balls = seq 1 (TB.nb_balls two_balls) /\
  NoDup (TB.ids two_balls) /\
  forall cs ts, exists k,
    TB.ids (fst (TB._update two_balls cs ts))
    = TB.ids two_balls ++ seq (S (TB.nb_balls two_balls)) k.
Proof.
  apply (ids_sequential two_balls).
  unfold two_balls. cbn [TB.run].
  apply (TB.reach_update (TB.__init__ 0) [(0, 0); (10, 10)]%Z 1).
  apply TB.reach_init.
Defined.

(** C8 (no maximum-distance gate), where the code departs from it: the
    sentinel [min = 5000] acts as a bound.  Whenever the pool is not empty
    and every candidate lies at distance 5000 or more, [_find_match] does
    not return the nearest candidate: [closest_ball] was never bound and
    the call raises [UnboundLocalError]. *)
Theorem find_match_bounded_by_5000 (b : Ball.t) (cs : list point) :
  cs <> [] ->
  (forall c, In c cs -> (5000 <= euclid c (Ball.position b))%R) ->
  TB._find_match b cs = Raises UnboundLocalError.
Proof.
  intros Hne Hfar. apply find_match_far; [exact Hne|].
  rewrite Forall_forall. intros c Hin. apply euclid_ge_5000. auto.
Qed.

Lemma find_match_bounded_by_5000_witness :
  TB._find_match (Ball.__init__ 1 0 (0, 0)%Z) [(5000, 0)]%Z
  = Raises UnboundLocalError.
Proof.
  apply (find_match_bounded_by_5000 (Ball.__init__ 1 0 (0, 0)%Z) [(5000, 0)]%Z).
  - discriminate.
  - intros c [<-|[]]. apply euclid_ge_5000. vm_compute. discriminate.
Defined.

(** C9 (the update never raises), where the code departs from it: a
    first frame with a ball at (0,0), then a frame whose only detection
    (5000,0) is 5000 away.  The second update lets the
    [UnboundLocalError] of [_find_match] through to its caller.  An empty
    frame, on the other hand, returns and changes no track. *)
Theorem update_raises_unbound_local :
  TB.run (TB.__init__ 0) [([(0, 0)], 1); ([(5000, 0)], 2)]%Z
  = ({| TB.time := 2; TB.score := 0;
        TB.balls := [ {| Ball.time0 := 1; Ball.elapsedTime := 0;
                         Ball.score := 0; Ball.position := (0, 0);
                         Ball.id := 1 |} ];
        TB.nb_balls := 1 |}, Raises UnboundLocalError)%Z /\
  TB.run (TB.__init__ 0) [([], 1)]%Z
  = ({| TB.time := 1; TB.score := 0; TB.balls := []; TB.nb_balls := 0 |},
     Returns tt)%Z.
Proof. split; reflexivity. Qed.

(** The scenario of the design document: an empty frame, then (5,5),
    then (6,5) and (50,50). *)
Example scenario :
  TB.run (TB.__init__ 0) [([], 1); ([(5, 5)], 2); ([(6, 5); (50, 50)], 3)]%Z
  = ({| TB.time := 3; TB.score := 0;
        TB.balls := [ {| Ball.time0 := 2; Ball.elapsedTime := 1;
                         Ball.score := 0; Ball.position := (6, 5);
                         Ball.id := 1 |};
                      {| Ball.time0 := 3; Ball.elapsedTime := 0;
                         Ball.score := 0; Ball.position := (50, 50);
                         Ball.id := 2 |} ];
        TB.nb_balls := 2 |}, Returns tt)%Z.
Proof. reflexivity. Qed.

(* ------------------------------------------------------------------ *)
(** ** Properties of the robot detector *)

Section DetectorProperties.

Variable contour : Type.
Variable minEnclosingCircle : contour -> (R * R) * R.

Local Abbreviation detect := (RD._detect_marker minEnclosingCircle).
Local Abbreviation callback := (RD._camera_data_updated_callback minEnclosingCircle).

Lemma detect_one (cnt : contour) :
  detect [cnt] = (Some (fst (fst (minEnclosingCircle cnt))),
                  Some (snd (fst (minEnclosingCircle cnt)))).
Proof.
  unfold RD._detect_marker.
  destruct (minEnclosingCircle cnt) as [[cx cy] radius]. reflexivity.
Qed.

Lemma detect_none (contours : list contour) :
  length contours <> 1 -> detect contours = (None, None).
Proof.
  destruct contours as [|c [|c' l]]; simpl; intros H;
    [reflexivity | congruence | reflexivity].
Qed.

Lemma detected_dec (contours : list contour) :
  {RD.detected contours} + {~ RD.detected contours}.
Proof. unfold RD.detected. apply Nat.eq_dec. Qed.

(** A frame in which a marker is missing or ambiguous leaves the
    detector as it is. *)
Lemma callback_skip (s : RD.t) (fc rc : list contour) (ts : Z) :
  ~ RD.detected fc \/ ~ RD.detected rc ->
  callback s fc rc ts = (s, Returns tt).
Proof.
  unfold RD.detected, RD._camera_data_updated_callback.
  intros [H|H].
  - rewrite (detect_none fc H). reflexivity.
  - rewrite (detect_none rc H).
    destruct (fst (detect fc)); reflexivity.
Qed.

(** A frame with both markers publishes the pose of the rear marker. *)
Lemma callback_both (s : RD.t) (cf cr : contour) (ts : Z) :
  callback s [cf] [cr] ts =
  (let f := fst (minEnclosingCircle cf) in
   let r := fst (minEnclosingCircle cr) in
   let heading := arctan2 (snd f - snd r)%R (fst f - fst r)%R in
   {| RD._position := [fst r; snd r]; RD._heading := heading;
      RD._timestamp := ts;
      RD.data_updated_calls :=
        ([fst r; snd r], heading, ts) :: RD.data_updated_calls s |},
   Returns tt).
Proof.
  unfold RD._camera_data_updated_callback. rewrite !detect_one. reflexivity.
Qed.

(** The callback raises nothing: [_detect_marker] gives both components
    of a point or none. *)
Lemma callback_returns (s : RD.t) (fc rc : list contour) (ts : Z) :
  snd (callback s fc rc ts) = Returns tt.
Proof.
  destruct (detected_dec fc) as [Hf|Hf];
    [|rewrite callback_skip; [reflexivity | now left]].
  destruct (detected_dec rc) as [Hr|Hr];
    [|rewrite callback_skip; [reflexivity | now right]].
  unfold RD.detected in *.
  destruct fc as [|cf [|? ?]]; simpl in Hf; try discriminate.
  destruct rc as [|cr [|? ?]]; simpl in Hr; try discriminate.
  now rewrite callback_both.
Qed.

(** C5: when the front or the rear marker is not detected, the update
    leaves position, heading and time stamp as they were, calls
    [data_updated_callback] not at all and raises nothing; the stored
    pose changes only in a frame where both markers are detected. *)
Theorem pose_gating (s : RD.t) (fc rc : list contour) (ts : Z) :
  (~ RD.detected fc \/ ~ RD.detected rc ->
   callback s fc rc ts = (s, Returns tt)) /\
  ((RD._position (fst (callback s fc rc ts)),
    RD._heading (fst (callback s fc rc ts)),
    RD._timestamp (fst (callback s fc rc ts)))
   <> (RD._position s, RD._heading s, RD._timestamp s) ->
   RD.detected fc /\ RD.detected rc).
Proof.
  split; [apply callback_skip|].
  intros Hne.
  destruct (detected_dec fc) as [Hf|Hf], (detected_dec rc) as [Hr|Hr];
    try (split; assumption);
    exfalso; apply Hne; rewrite callback_skip; auto.
Qed.

(** C6: [_detect_marker] returns a point exactly when the mask holds one
    contour, and the point is then the centre of the smallest circle
    around that contour; with no contour or with several it returns
    [(None, None)]. *)
Theorem detect_marker_single (contours : list contour) :
  (forall cnt, contours = [cnt] ->
     RD._detect_marker minEnclosingCircle contours
     = (Some (fst (fst (minEnclosingCircle cnt))),
        Some (snd (fst (minEnclosingCircle cnt))))) /\
  (length contours <> 1 ->
   RD._detect_marker minEnclosingCircle contours = (None, None)) /\
  (RD.detected contours <->
   exists cx cy,
     RD._detect_marker minEnclosingCircle contours = (Some cx, Some cy)).
Proof.
  split; [intros cnt ->; apply detect_one|].
  split; [apply detect_none|].
  split.
  - destruct contours as [|c [|c' l]]; try discriminate.
    intros _. rewrite detect_one. eauto.
  - intros (cx & cy & H).
    destruct (Nat.eq_dec (length contours) 1) as [|Hne]; auto.
    rewrite (detect_none contours Hne) in H. discriminate.
Qed.

(** Before a first frame with both markers, the detector is in its
    initial state. *)
Lemma run_frames_initial (frames : list (RD.frame contour)) :
  Forall (fun fr => ~ (RD.detected (fst (fst fr)) /\
                       RD.detected (snd (fst fr)))) frames ->
  RD.run_frames minEnclosingCircle RD.__init__ frames = RD.__init__.
Proof.
  induction 1 as [|[[fc rc] ts] frames Hfr _ IH]; [reflexivity|].
  cbn [RD.run_frames]. rewrite callback_skip; [exact IH|].
  simpl in Hfr.
  destruct (detected_dec fc), (detected_dec rc); tauto.
Qed.

(** C10: as long as no frame has shown both markers, [get_position]
    returns [[0, 0]], [get_heading] returns [0] and the time stamp
    is [0]. *)
Theorem initial_pose_until_both_detected (frames : list (RD.frame contour)) :
  Forall (fun fr => ~ (RD.detected (fst (fst fr)) /\
                       RD.detected (snd (fst fr)))) frames ->
  RD.get_position (RD.run_frames minEnclosingCircle RD.__init__ frames)
  = [0; 0]%R /\
  RD.get_heading (RD.run_frames minEnclosingCircle RD.__init__ frames)
  = 0%R /\
  RD._timestamp (RD.run_frames minEnclosingCircle RD.__init__ frames)
  = 0%Z.
Proof.
  intros H. rewrite (run_frames_initial frames H). repeat split.
Qed.

End DetectorProperties.

Lemma pose_gating_witness :
  RD._camera_data_updated_callback circle_of RD.__init__
    [] [((3, 4), 1)]%R 7
  = (RD.__init__, Returns tt).
Proof.
  apply (proj1 (pose_gating circle circle_of RD.__init__ [] [((3, 4), 1)]%R 7)).
  left. unfold RD.detected. simpl. discriminate.
Defined.

Lemma detect_marker_single_witness :
  RD._detect_marker circle_of [((3, 4), 1)]%R = (Some 3, Some 4)%R.
Proof.
  apply (proj1 (detect_marker_single circle circle_of [((3, 4), 1)]%R)
               ((3, 4), 1)%R).
  reflexivity.
Defined.

Lemma initial_pose_until_both_detected_witness :
  RD.get_position
    (RD.run_frames circle_of RD.__init__
       [([], [((3, 4), 1)], 7%Z); ([((1, 1), 1); ((2, 2), 1)], [], 8%Z)]%R)
  = [0; 0]%R /\
  RD.get_heading
    (RD.run_frames circle_of RD.__init__
       [([], [((3, 4), 1)], 7%Z); ([((1, 1), 1); ((2, 2), 1)], [], 8%Z)]%R)
  = 0%R /\
  RD._timestamp
    (RD.run_frames circle_of RD.__init__
       [([], [((3, 4), 1)], 7%Z); ([((1, 1), 1); ((2, 2), 1)], [], 8%Z)]%R)
  = 0%Z.
Proof.
  apply (initial_pose_until_both_detected circle circle_of).
  repeat constructor; unfold RD.detected; simpl; intros [H1 H2]; discriminate.
Defined.

Lemma arctan2_east : arctan2 (0 - 0) (10 - 0) = 0%R.
Proof.
  unfold arctan2. destruct (Rlt_dec 0 (10 - 0)) as [_|H]; [|exfalso; lra].
  replace ((0 - 0) / (10 - 0))%R with 0%R by lra. apply atan_0.
Qed.

Lemma arctan2_north : arctan2 (-10 - 0) (0 - 0) = (- PI / 2)%R.
Proof.
  unfold arctan2.
  destruct (Rlt_dec 0 (0 - 0)) as [H|_]; [exfalso; lra|].
  destruct (Rlt_dec (0 - 0) 0) as [H|_]; [exfalso; lra|].
  destruct (Rlt_dec 0 (-10 - 0)) as [H|_]; [exfalso; lra|].
  destruct (Rlt_dec (-10 - 0) 0) as [_|H]; [lra | exfalso; lra].
Qed.

(** C7: with both markers detected, the published position is the point
    of the rear marker and the published heading is
    [atan2(front.y - rear.y, front.x - rear.x)].  With front (10,0) and
    rear (0,0) the heading is 0; with front (0,-10) and rear (0,0) it is
    -PI/2. *)
Theorem pose_from_markers :
  (forall (contour : Type) (minEnclosingCircle : contour -> (R * R) * R)
          (s : RD.t) (cf cr : contour) (ts : Z),
      let f := fst (minEnclosingCircle cf) in
      let r := fst (minEnclosingCircle cr) in
      let s' := fst (RD._camera_data_updated_callback minEnclosingCircle
                       s [cf] [cr] ts) in
      RD.get_position s' = [fst r; snd r] /\
      RD.get_heading s' = arctan2 (snd f - snd r) (fst f - fst r) /\
      RD.data_updated_calls s'
      = ([fst r; snd r], arctan2 (snd f - snd r) (fst f - fst r), ts)
          :: RD.data_updated_calls s) /\
  (forall (s : RD.t) (ts : Z) (rf rr : R),
      RD.get_heading
        (fst (RD._camera_data_updated_callback circle_of s
                [((10, 0), rf)]%R [((0, 0), rr)]%R ts)) = 0%R) /\
  (forall (s : RD.t) (ts : Z) (rf rr : R),
      RD.get_heading
        (fst (RD._camera_data_updated_callback circle_of s
                [((0, -10), rf)]%R [((0, 0), rr)]%R ts)) = (- PI / 2)%R).
Proof.
  split; [|split].
  - intros contour mec s cf cr ts. cbv zeta. rewrite callback_both.
    repeat split.
  - intros s ts rf rr. rewrite callback_both. apply arctan2_east.
  - intros s ts rf rr. rewrite callback_both. apply arctan2_north.
Qed.

(* ------------------------------------------------------------------ *)
(** ** Further properties of the tracker *)

(** [_update] in terms of [match_all]. *)
Lemma update_unfold (s : TB.t) (cs : list point) (ts : Z) :
  counted s ->
  exists t c o,
    match_all (TB.balls s) cs = (t, c, o) /\
    TB._update s cs ts =
    match o with
    | Raises e =>
        ({| TB.time := ts; TB.score := TB.score s; TB.balls := t;
            TB.nb_balls := TB.nb_balls s |}, Raises e)
    | Returns _ =>
        let s1 := {| TB.time := ts; TB.score := TB.score s; TB.balls := t;
                     TB.nb_balls := TB.nb_balls s |} in
        let s2 := if TB.nb_balls s <? length cs then TB.add_loop c s1
                  else s1 in
        ({| TB.time := TB.time s2; TB.score := TB.score s2;
            TB.balls := map (fun b => Ball.set_time b (TB.time s2))
                            (TB.balls s2);
            TB.nb_balls := TB.nb_balls s2 |}, Returns tt)
    end.
Proof.
  intros Hc. unfold TB._update, TB._detect_balls.
  cbn [TB.nb_balls TB.balls TB.time TB.score].
  rewrite (filter_loop_counted s cs Hc).
  destruct (match_all (TB.balls s) cs) as [[t c] o].
  exists t, c, o. split; [reflexivity|]. destruct o; reflexivity.
Qed.

Lemma find_match_raises (b : Ball.t) (cs : list point) (e : exn) :
  TB._find_match b cs = Raises e -> e = UnboundLocalError.
Proof.
  unfold TB._find_match. destruct cs as [|c0 cs0]; [discriminate|].
  destruct (TB.scan _ _ _ _ _); [discriminate|]. congruence.
Qed.

(** The filter loop ends normally or on the exception of [_find_match]. *)
Lemma match_all_outcome : forall todo cs t c o,
  match_all todo cs = (t, c, o) ->
  o = Returns tt \/ o = Raises UnboundLocalError.
Proof.
  induction todo as [|b todo IH]; intros cs t c o H.
  - simpl in H. inversion H. auto.
  - cbn [match_all] in H.
    destruct (TB._find_match b cs) as [k|e] eqn:Hf.
    + apply find_match_returns in Hf.
      destruct Hf as [[-> ->] | (x & Hk & Hx)].
      * simpl in H. destruct (match_all todo []) as [[t0 c0] o0] eqn:Hm.
        inversion H; subst. eauto.
      * replace (k =? -1)%Z with false in H by (symmetry; apply Z.eqb_neq; lia).
        rewrite Hx in H.
        destruct (match_all todo (pop (Z.to_nat k) cs)) as [[t0 c0] o0] eqn:Hm.
        inversion H; subst. eauto.
    + apply find_match_raises in Hf. inversion H; subst. auto.
Qed.

(** What [set_position] does not touch is the same before and after the
    loop. *)
Lemma match_all_proj {A : Type} (f : Ball.t -> A) :
  (forall b X, f (Ball.set_position b X) = f b) ->
  forall todo cs t c o,
    match_all todo cs = (t, c, o) -> map f t = map f todo.
Proof.
  intros Hf. induction todo as [|b todo IH]; intros cs t c o H.
  - simpl in H. inversion H. reflexivity.
  - cbn [match_all] in H.
    destruct (TB._find_match b cs) as [k|e].
    + destruct (k =? -1)%Z.
      * destruct (match_all todo cs) as [[t0 c0] o0] eqn:Hm.
        inversion H; subst. simpl. f_equal. eauto.
      * destruct (nth_error cs (Z.to_nat k)) as [x|].
        -- destruct (match_all todo (pop (Z.to_nat k) cs))
             as [[t0 c0] o0] eqn:Hm.
           inversion H; subst. simpl. rewrite Hf. f_equal. eauto.
        -- inversion H; subst. reflexivity.
    + inversion H; subst. reflexivity.
Qed.

Lemma pop_perm {A : Type} (l : list A) : forall k x,
  nth_error l k = Some x -> Permutation (x :: pop k l) l.
Proof.
  induction l as [|a l IH]; intros [|k] x H; simpl in *; try discriminate.
  - inversion H. apply Permutation_refl.
  - eapply perm_trans; [apply perm_swap|].
    apply perm_skip. eapply IH; eauto.
Qed.

(** When the loop ends normally on at least as many detections as
    tracks, the positions of the tracks and the rest of the pool are the
    detections, each one once. *)
Lemma match_all_perm : forall todo cs t c,
  match_all todo cs = (t, c, Returns tt) ->
  length todo <= length cs ->
  Permutation (map Ball.position t ++ c) cs.
Proof.
  induction todo as [|b todo IH]; intros cs t c H Hlen.
  - simpl in H. inversion H. apply Permutation_refl.
  - cbn [match_all] in H.
    destruct (TB._find_match b cs) as [k|e] eqn:Hf; [|discriminate].
    apply find_match_returns in Hf.
    destruct Hf as [[-> ->] | (x & Hk & Hx)]; [simpl in Hlen; lia|].
    replace (k =? -1)%Z with false in H by (symmetry; apply Z.eqb_neq; lia).
    rewrite Hx in H.
    destruct (match_all todo (pop (Z.to_nat k) cs)) as [[t0 c0] o0] eqn:Hm.
    inversion H; subst.
    pose proof (pop_length cs _ _ Hx) as Hp.
    simpl. eapply perm_trans; [|apply (pop_perm cs _ _ Hx)].
    apply perm_skip. apply IH; [exact Hm | simpl in Hlen; lia].
Qed.

(** After the loop a track is where it was or on a detection. *)
Lemma match_all_positions : forall todo cs t c o,
  match_all todo cs = (t, c, o) ->
  Forall2 (fun b b' => Ball.position b' = Ball.position b \/
                       In (Ball.position b') cs) todo t.
Proof.
  induction todo as [|b todo IH]; intros cs t c o H.
  - simpl in H. inversion H. constructor.
  - assert (Hsame : Forall2 (fun b b' => Ball.position b' = Ball.position b \/
                               In (Ball.position b') cs) (b :: todo) (b :: todo)).
    { clear. induction (b :: todo); constructor; auto. }
    cbn [match_all] in H.
    destruct (TB._find_match b cs) as [k|e].
    + destruct (k =? -1)%Z.
      * destruct (match_all todo cs) as [[t0 c0] o0] eqn:Hm.
        inversion H; subst. constructor; [auto | eauto].
      * destruct (nth_error cs (Z.to_nat k)) as [x|] eqn:Hx.
        -- destruct (match_all todo (pop (Z.to_nat k) cs))
             as [[t0 c0] o0] eqn:Hm.
           inversion H; subst. constructor.
           ++ right. simpl. eapply nth_error_In; eauto.
           ++ eapply Forall2_impl; [|eapply IH; eauto].
              intros a a' [Ha|Ha]; [auto | right; eapply pop_In; eauto].
        -- inversion H; subst. exact Hsame.
    + inversion H; subst. exact Hsame.
Qed.

(** [_find_match], case by case: [-1] exactly on the empty list; the
    exception exactly on a list that is not empty and has every candidate
    at 5000 or more; any other value is the index of a candidate closer
    than 5000, nearest of all and first among the nearest. *)
Theorem find_match_outcomes (b : Ball.t) (cs : list point) :
  (TB._find_match b cs = Returns (-1)%Z <-> cs = []) /\
  (TB._find_match b cs = Raises UnboundLocalError <->
   cs <> [] /\
   forall c, In c cs -> (5000 <= euclid c (Ball.position b))%R) /\
  (forall k, TB._find_match b cs = Returns k -> k <> (-1)%Z ->
     exists c,
       (0 <= k)%Z /\ nth_error cs (Z.to_nat k) = Some c /\
       (euclid c (Ball.position b) < 5000)%R /\
       (forall c', In c' cs ->
          (euclid c (Ball.position b) <= euclid c' (Ball.position b))%R) /\
       (forall j c', j < Z.to_nat k -> nth_error cs j = Some c' ->
          (euclid c (Ball.position b) < euclid c' (Ball.position b))%R)).
Proof.
  split; [|split].
  - split; [|intros ->; reflexivity].
    intros H. apply find_match_returns in H.
    destruct H as [[-> _] | (c & Hk & _)]; [reflexivity | lia].
  - split.
    + intros H. split.
      * intros ->. discriminate.
      * intros c Hin. apply euclid_ge_5000.
        destruct (Z.le_gt_cases TB.min0 (TB.sqdist c (Ball.position b)))
          as [|Hlt]; auto.
        destruct (find_match_near b cs) as (k & x & Hf & _).
        { apply Exists_exists. exists c. auto. }
        congruence.
    + intros [Hne Hfar]. apply find_match_far; [exact Hne|].
      apply Forall_forall. intros c Hin. apply euclid_ge_5000. auto.
  - intros k H Hk. unfold TB._find_match in H.
    destruct cs as [|c0 cs0]; [inversion H; congruence|].
    destruct (scan_spec (Ball.position b) (c0 :: cs0) 0 TB.min0 None)
      as [[_ Heq] | (i & c & Hn & Hs & Hc & Hmin & Hfirst)].
    + rewrite Heq in H. discriminate.
    + rewrite Hs in H. simpl in H. inversion H; subst k.
      rewrite Nat2Z.id. exists c.
      split; [lia|]. split; [exact Hn|].
      split; [now apply sqrt_lt_5000|]. split.
      * intros c' Hin. apply In_nth_error in Hin. destruct Hin as (j & Hj).
        apply euclid_le. eauto.
      * intros j c' Hj Hc'. apply euclid_lt. eauto.
Qed.

Lemma find_match_outcomes_witness :
  TB._find_match (Ball.__init__ 1 0 (0, 0)%Z) [] = Returns (-1)%Z.
Proof.
  apply (proj1 (find_match_outcomes (Ball.__init__ 1 0 (0, 0)%Z) [])).
  reflexivity.
Defined.

(** An update of a tracker whose counter agrees with its list returns or
    raises [UnboundLocalError]: no index is ever out of range. *)
Theorem update_outcome (s : TB.t) (cs : list point) (ts : Z) :
  counted s ->
  snd (TB._update s cs ts) = Returns tt \/
  snd (TB._update s cs ts) = Raises UnboundLocalError.
Proof.
  intros Hc. destruct (update_unfold s cs ts Hc) as (t & c & o & Hm & Hu).
  rewrite Hu. apply match_all_outcome in Hm.
  destruct Hm as [-> | ->]; simpl; auto.
Qed.

Lemma update_outcome_witness :
  snd (TB._update two_balls [(3, 4)]%Z 2) = Returns tt \/
  snd (TB._update two_balls [(3, 4)]%Z 2) = Raises UnboundLocalError.
Proof. apply (update_outcome two_balls [(3, 4)]%Z 2). reflexivity. Defined.

(** With at least as many detections as tracks, all of them closer than
    5000 to every track, the update returns and every detection ends as
    the position of exactly one track. *)
Theorem update_claims_every_detection (s : TB.t) (cs : list point) (ts : Z) :
  counted s -> all_within (TB.balls s) cs ->
  length (TB.balls s) <= length cs ->
  snd (TB._update s cs ts) = Returns tt /\
  Permutation (TB.positions (fst (TB._update s cs ts))) cs.
Proof.
  intros Hc Hw Hlen.
  destruct (update_tracks s cs ts Hc)
    as (t & c & o & olds & news & Hm & Ho & Hb & _ & Hpos & _ & _ & _ & Hp).
  destruct (match_all_within (TB.balls s) cs Hw) as (t' & c' & Hm' & Hl).
  rewrite Hm in Hm'. injection Hm' as -> -> ->.
  split; [exact Ho|].
  unfold TB.positions. rewrite Hb, map_app, Hpos, Hp.
  pose proof (match_all_perm _ _ _ _ Hm Hlen) as Hperm.
  destruct (Nat.ltb_spec (TB.nb_balls s) (length cs)) as [_|Hge].
  - exact Hperm.
  - rewrite Hc in Hge. assert (c' = []) by (destruct c'; simpl in Hl; [auto | lia]).
    subst c'. exact Hperm.
Qed.

Lemma update_claims_every_detection_witness :
  snd (TB._update two_balls [(9, 9); (1, 1); (5, 5)]%Z 2) = Returns tt /\
  Permutation
    (TB.positions (fst (TB._update two_balls [(9, 9); (1, 1); (5, 5)]%Z 2)))
    [(9, 9); (1, 1); (5, 5)]%Z.
Proof.
  apply (update_claims_every_detection two_balls [(9, 9); (1, 1); (5, 5)]%Z 2).
  - reflexivity.
  - repeat constructor.
  - simpl. lia.
Defined.

(** After an update that returns, every track, visited or not, has
    [elapsedTime = timeStamp - time0], and the tracker holds the time
    stamp of the frame. *)
Theorem update_elapsed (s : TB.t) (cs : list point) (ts : Z) :
  snd (TB._update s cs ts) = Returns tt ->
  Forall (fun b => Ball.elapsedTime b = (ts - Ball.time0 b)%Z)
         (TB.balls (fst (TB._update s cs ts))) /\
  TB.time (fst (TB._update s cs ts)) = ts.
Proof.
  unfold TB._update, TB._detect_balls.
  cbn [TB.nb_balls TB.balls TB.time TB.score].
  destruct (TB.filter_loop _ _ _) as [[t c] [[]|e]]; [|discriminate].
  intros _. cbn [fst TB.balls TB.time].
  assert (Ht : TB.time
                 (if TB.nb_balls s <? length cs
                  then TB.add_loop c {| TB.time := ts; TB.score := TB.score s;
                                        TB.balls := t;
                                        TB.nb_balls := TB.nb_balls s |}
                  else {| TB.time := ts; TB.score := TB.score s;
                          TB.balls := t; TB.nb_balls := TB.nb_balls s |}) = ts).
  { destruct (TB.nb_balls s <? length cs); [|reflexivity].
    destruct (add_loop_spec c {| TB.time := ts; TB.score := TB.score s;
                                 TB.balls := t; TB.nb_balls := TB.nb_balls s |})
      as (news & _ & _ & _ & _ & _ & Htime). exact Htime. }
  cbn [TB.nb_balls] in *. rewrite Ht. split; [|reflexivity].
  apply Forall_map. apply Forall_forall. intros b _. reflexivity.
Qed.

Lemma update_elapsed_witness :
  Forall (fun b => Ball.elapsedTime b = (7 - Ball.time0 b)%Z)
         (TB.balls (fst (TB._update two_balls [(3, 4)]%Z 7))) /\
  TB.time (fst (TB._update two_balls [(3, 4)]%Z 7)) = 7%Z.
Proof. apply (update_elapsed two_balls [(3, 4)]%Z 7). reflexivity. Defined.

Lemma set_time_time0_map l ts :
  map Ball.time0 (map (fun b => Ball.set_time b ts) l) = map Ball.time0 l.
Proof. rewrite map_map. reflexivity. Qed.

Lemma repeat_time0 ts news :
  Forall (fun b => Ball.time0 b = ts) news ->
  map Ball.time0 news = repeat ts (length news).
Proof.
  induction 1 as [|b l Hb _ IH]; simpl; [reflexivity|]. now rewrite Hb, IH.
Qed.

(** The creation time of a track never changes: an update, whether it
    returns or raises, leaves [time0] of the tracks that existed and
    gives the new tracks the time stamp of the frame. *)
Theorem update_creation_times (s : TB.t) (cs : list point) (ts : Z) :
  counted s ->
  exists k,
    map Ball.time0 (TB.balls (fst (TB._update s cs ts)))
    = map Ball.time0 (TB.balls s) ++ repeat ts k /\
    length (TB.balls (fst (TB._update s cs ts))) = length (TB.balls s) + k.
Proof.
  intros Hc. destruct (update_unfold s cs ts Hc) as (t & c & o & Hm & Hu).
  pose proof (match_all_proj Ball.time0 (fun _ _ => eq_refl) _ _ _ _ _ Hm) as Ht.
  pose proof (match_all_shape _ _ _ _ _ Hm) as (Hl & _).
  rewrite Hu. destruct o as [[]|e].
  - cbv zeta. cbn [fst TB.balls TB.nb_balls].
    destruct (TB.nb_balls s <? length cs).
    + destruct (add_loop_spec c {| TB.time := ts; TB.score := TB.score s;
                                   TB.balls := t; TB.nb_balls := TB.nb_balls s |})
        as (news & Hb & _ & _ & Hnew & _ & _).
      cbn [TB.balls TB.time] in *. exists (length news).
      rewrite Hb, length_map, length_app, Hl. split; [|reflexivity].
      rewrite set_time_time0_map, map_app, Ht. f_equal.
      apply repeat_time0. exact Hnew.
    + exists 0. cbn [TB.balls repeat].
      rewrite length_map, set_time_time0_map, app_nil_r.
      split; [exact Ht | lia].
  - exists 0. cbn [fst TB.balls repeat]. rewrite app_nil_r.
    split; [exact Ht | lia].
Qed.

Lemma update_creation_times_witness :
  exists k,
    map Ball.time0 (TB.balls (fst (TB._update two_balls [(3, 4)]%Z 7)))
    = map Ball.time0 (TB.balls two_balls) ++ repeat 7%Z k /\
    length (TB.balls (fst (TB._update two_balls [(3, 4)]%Z 7)))
    = length (TB.balls two_balls) + k.
Proof.
  apply (update_creation_times two_balls [(3, 4)]%Z 7). reflexivity.
Defined.

(** After an update a track that existed is where it was or on a
    detection of the frame, and a new track is on a detection of the
    frame. *)
Theorem update_position_origin (s : TB.t) (cs : list point) (ts : Z) :
  counted s ->
  forall i p,
    nth_error (TB.positions (fst (TB._update s cs ts))) i = Some p ->
    nth_error (TB.positions s) i = Some p \/ In p cs.
Proof.
  intros Hc i p Hi.
  destruct (update_tracks s cs ts Hc)
    as (t & c & o & olds & news & Hm & _ & Hb & _ & Hpos & _ & _ & _ & Hp).
  pose proof (match_all_positions _ _ _ _ _ Hm) as Hf2.
  pose proof (match_all_shape _ _ _ _ _ Hm) as (Hl & _ & _ & Hin).
  unfold TB.positions in *. rewrite Hb, map_app, Hpos in Hi.
  destruct (Nat.lt_ge_cases i (length (map Ball.position t))) as [Hlt|Hge].
  - rewrite nth_error_app1 in Hi by exact Hlt.
    rewrite nth_error_map in Hi.
    destruct (nth_error t i) as [b'|] eqn:Hb'; [|discriminate].
    simpl in Hi. inversion Hi; subst p.
    revert Hf2 Hb'. generalize (TB.balls s) as l0. clear.
    intros l0 Hf2. revert i.
    induction Hf2 as [|b b0 l l' Hbb _ IH]; intros [|i] Hi; simpl in *;
      try discriminate.
    + inversion Hi; subst. destruct Hbb as [->|]; auto.
    + auto.
  - rewrite nth_error_app2 in Hi by exact Hge.
    apply nth_error_In in Hi. rewrite Hp in Hi. right.
    destruct o; [|destruct Hi].
    destruct (TB.nb_balls s <? length cs); [auto | destruct Hi].
Qed.

Lemma update_position_origin_witness :
  nth_error (TB.positions two_balls) 0 = Some (3, 4)%Z \/
  In (3, 4)%Z [(3, 4)]%Z.
Proof.
  apply (update_position_origin two_balls [(3, 4)]%Z 7).
  - reflexivity.
  - reflexivity.
Defined.

(** An update that raises stops half-way: the tracker has taken the time
    stamp of the frame and the tracks visited so far have moved, but no
    track is created and no track has its elapsed time refreshed. *)
Theorem update_raise_effect (s : TB.t) (cs : list point) (ts : Z) (e : exn) :
  counted s ->
  snd (TB._update s cs ts) = Raises e ->
  TB.time (fst (TB._update s cs ts)) = ts /\
  TB.nb_balls (fst (TB._update s cs ts)) = TB.nb_balls s /\
  map (fun b => (Ball.id b, Ball.time0 b, Ball.elapsedTime b, Ball.score b))
      (TB.balls (fst (TB._update s cs ts)))
  = map (fun b => (Ball.id b, Ball.time0 b, Ball.elapsedTime b, Ball.score b))
        (TB.balls s).
Proof.
  intros Hc. destruct (update_unfold s cs ts Hc) as (t & c & o & Hm & Hu).
  rewrite Hu. destruct o as [[]|e']; [discriminate|].
  intros _. cbn [fst TB.time TB.nb_balls TB.balls].
  split; [reflexivity|]. split; [reflexivity|].
  exact (match_all_proj
           (fun b => (Ball.id b, Ball.time0 b, Ball.elapsedTime b,
                      Ball.score b))
           (fun _ _ => eq_refl) _ _ _ _ _ Hm).
Qed.

Lemma update_raise_effect_witness :
  TB.time (fst (TB._update two_balls [(9000, 0); (0, 9000)]%Z 7)) = 7%Z /\
  TB.nb_balls (fst (TB._update two_balls [(9000, 0); (0, 9000)]%Z 7))
  = TB.nb_balls two_balls /\
  map (fun b => (Ball.id b, Ball.time0 b, Ball.elapsedTime b, Ball.score b))
      (TB.balls (fst (TB._update two_balls [(9000, 0); (0, 9000)]%Z 7)))
  = map (fun b => (Ball.id b, Ball.time0 b, Ball.elapsedTime b, Ball.score b))
        (TB.balls two_balls).
Proof.
  apply (update_raise_effect two_balls [(9000, 0); (0, 9000)]%Z 7
                             UnboundLocalError);
    reflexivity.
Defined.

Lemma update_within_witness :
  snd (TB._update two_balls [(9, 9); (1, 1); (5, 5)]%Z 2) = Returns tt /\
  length (TB.balls (fst (TB._update two_balls [(9, 9); (1, 1); (5, 5)]%Z 2)))
  = Nat.max (length (TB.balls two_balls))
            (length [(9, 9); (1, 1); (5, 5)]%Z).
Proof.
  apply (update_within two_balls [(9, 9); (1, 1); (5, 5)]%Z 2).
  - reflexivity.
  - repeat constructor.
Defined.

(* ------------------------------------------------------------------ *)
(** ** Further properties of the robot detector *)

Lemma arctan2_range (y x : R) : (- PI < arctan2 y x <= PI)%R.
Proof.
  pose proof PI_RGT_0 as Hpi.
  pose proof (atan_bound (y / x)) as [Hlo Hhi].
  unfold arctan2.
  destruct (Rlt_dec 0 x) as [Hx|Hx]; [lra|].
  destruct (Rlt_dec x 0) as [Hx'|Hx'].
  - assert (Hinv : (/ x < 0)%R) by (apply Rinv_lt_0_compat; exact Hx').
    destruct (Rle_dec 0 y) as [Hy|Hy].
    + assert (Hq : (y / x <= 0)%R) by (unfold Rdiv; nra).
      assert (Ha : (atan (y / x) <= 0)%R).
      { destruct Hq as [Hq|Hq].
        - apply Rlt_le. rewrite <- atan_0. apply atan_increasing. exact Hq.
        - rewrite Hq, atan_0. lra. }
      lra.
    + assert (Hq : (0 < y / x)%R) by (unfold Rdiv; nra).
      assert (Ha : (0 < atan (y / x))%R).
      { rewrite <- atan_0. apply atan_increasing. exact Hq. }
      lra.
  - destruct (Rlt_dec 0 y); [lra|]. destruct (Rlt_dec y 0); lra.
Qed.

Section DetectorRuns.

Variable contour : Type.
Variable minEnclosingCircle : contour -> (R * R) * R.

Local Abbreviation callback' :=
  (RD._camera_data_updated_callback minEnclosingCircle).
Local Abbreviation run' := (RD.run_frames minEnclosingCircle).

Lemma detectedb_true (contours : list contour) :
  detectedb contours = true -> exists cnt, contours = [cnt].
Proof.
  unfold detectedb. intros H. apply Nat.eqb_eq in H.
  destruct contours as [|c [|c' l]]; try discriminate. eauto.
Qed.

Lemma detectedb_false (contours : list contour) :
  detectedb contours = false -> ~ RD.detected contours.
Proof. unfold detectedb, RD.detected. intros H. now apply Nat.eqb_neq. Qed.

(** The callback on a frame, by the test on both markers. *)
Lemma callback_frame (s : RD.t) (fc rc : list contour) (ts : Z) :
  (both_detected (fc, rc, ts) = false /\
   callback' s fc rc ts = (s, Returns tt)) \/
  (both_detected (fc, rc, ts) = true /\
   exists cf cr, fc = [cf] /\ rc = [cr]).
Proof.
  unfold both_detected. cbn [fst snd].
  destruct (detectedb fc) eqn:Hf; [destruct (detectedb rc) eqn:Hr|].
  - right. split; [reflexivity|].
    apply detectedb_true in Hf. apply detectedb_true in Hr.
    destruct Hf as (cf & ->), Hr as (cr & ->). eauto.
  - left. split; [reflexivity|]. apply callback_skip. right.
    now apply detectedb_false.
  - left. split; [reflexivity|]. apply callback_skip. left.
    now apply detectedb_false.
Qed.

Lemma run_frames_app (pre post : list (RD.frame contour)) : forall s,
  run' s (pre ++ post) = run' (run' s pre) post.
Proof.
  induction pre as [|[[fc rc] ts] pre IH]; intros s; [reflexivity|].
  cbn [app RD.run_frames]. apply IH.
Qed.

Lemma run_frames_skip (frames : list (RD.frame contour)) : forall s,
  forallb (fun fr => negb (both_detected fr)) frames = true ->
  run' s frames = s.
Proof.
  induction frames as [|[[fc rc] ts] frames IH]; intros s H; [reflexivity|].
  cbn [forallb] in H. apply andb_prop in H. destruct H as [Hfr Hrest].
  cbn [RD.run_frames].
  destruct (callback_frame s fc rc ts) as [[_ Hcb] | [Hb _]].
  - rewrite Hcb. cbn [fst]. apply IH. exact Hrest.
  - rewrite Hb in Hfr. discriminate.
Qed.

(** [data_updated_callback] is called once for each frame in which both
    markers are detected, and for no other frame. *)
Theorem calls_count (frames : list (RD.frame contour)) : forall s,
  length (RD.data_updated_calls (run' s frames))
  = length (RD.data_updated_calls s) + length (filter both_detected frames).
Proof.
  induction frames as [|[[fc rc] ts] frames IH]; intros s.
  - simpl. lia.
  - cbn [RD.run_frames filter]. rewrite IH.
    destruct (callback_frame s fc rc ts)
      as [[Hb Hcb] | [Hb (cf & cr & -> & ->)]]; rewrite Hb.
    + rewrite Hcb. reflexivity.
    + rewrite callback_both. cbn [fst RD.data_updated_calls length]. lia.
Qed.

(** The pull accessors give the pose of the latest call of
    [data_updated_callback], and the initial pose before any call. *)
Theorem accessors_give_last_call (frames : list (RD.frame contour)) :
  match RD.data_updated_calls (run' RD.__init__ frames) with
  | [] => pose (run' RD.__init__ frames) = pose RD.__init__
  | call :: _ => pose (run' RD.__init__ frames) = call
  end.
Proof.
  assert (H : forall s,
             match RD.data_updated_calls s with
             | [] => pose s = pose RD.__init__
             | call :: _ => pose s = call
             end ->
             match RD.data_updated_calls (run' s frames) with
             | [] => pose (run' s frames) = pose RD.__init__
             | call :: _ => pose (run' s frames) = call
             end).
  { induction frames as [|[[fc rc] ts] frames IH]; intros s Hs; [exact Hs|].
    cbn [RD.run_frames]. apply IH.
    destruct (callback_frame s fc rc ts)
      as [[_ Hcb] | [_ (cf & cr & -> & ->)]].
    - rewrite Hcb. exact Hs.
    - rewrite callback_both. reflexivity. }
  apply H. reflexivity.
Qed.

(** The stored pose is the one of the most recent frame with both
    markers: position of the rear marker, heading from rear to front and
    time stamp of that frame, whatever came before it and however many
    frames without both markers came after it. *)
Theorem pose_of_latest_detection
        (pre post : list (RD.frame contour)) (cf cr : contour) (ts : Z)
        (s : RD.t) :
  forallb (fun fr => negb (both_detected fr)) post = true ->
  let f := fst (minEnclosingCircle cf) in
  let r := fst (minEnclosingCircle cr) in
  pose (run' s (pre ++ ([cf], [cr], ts) :: post))
  = ([fst r; snd r], arctan2 (snd f - snd r) (fst f - fst r), ts).
Proof.
  intros Hpost f r. rewrite run_frames_app. cbn [RD.run_frames].
  rewrite run_frames_skip by exact Hpost.
  rewrite callback_both. reflexivity.
Qed.

(** Whatever the frames, [get_position] returns two coordinates and
    [get_heading] an angle in the interval from [-PI] (excluded) to [PI]. *)
Theorem pose_well_formed (frames : list (RD.frame contour)) :
  length (RD.get_position (run' RD.__init__ frames)) = 2 /\
  (- PI < RD.get_heading (run' RD.__init__ frames) <= PI)%R.
Proof.
  assert (H : forall s,
             (length (RD.get_position s) = 2 /\
              (- PI < RD.get_heading s <= PI)%R) ->
             length (RD.get_position (run' s frames)) = 2 /\
             (- PI < RD.get_heading (run' s frames) <= PI)%R).
  { induction frames as [|[[fc rc] ts] frames IH]; intros s Hs; [exact Hs|].
    cbn [RD.run_frames]. apply IH.
    destruct (callback_frame s fc rc ts)
      as [[_ Hcb] | [_ (cf & cr & -> & ->)]].
    - rewrite Hcb. exact Hs.
    - rewrite callback_both. cbn [fst RD.get_position RD.get_heading
                                  RD._position RD._heading length].
      split; [reflexivity | apply arctan2_range]. }
  apply H. cbn. split; [reflexivity|]. pose proof PI_RGT_0. lra.
Qed.

End DetectorRuns.

Lemma pose_of_latest_detection_witness :
  pose (RD.run_frames circle_of RD.__init__
          ([([((9, 9), 1)], [], 1%Z)]
             ++ ([((3, 4), 1)], [((0, 0), 1)], 2%Z)
             :: [([], [((5, 5), 1)], 3%Z)]))%R
  = ([0; 0], arctan2 (4 - 0) (3 - 0), 2%Z)%R.
Proof.
  apply (pose_of_latest_detection circle circle_of
           [([((9, 9), 1)], [], 1%Z)]%R [([], [((5, 5), 1)], 3%Z)]%R
           ((3, 4), 1)%R ((0, 0), 1)%R 2 RD.__init__).
  reflexivity.
Defined.

(* ------------------------------------------------------------------ *)
(** ** Properties of the earlier tracker (ball2.py) *)

Lemma match_loop_filter_loop : forall range_ balls cs,
  TB2.match_loop range_ balls cs = TB.filter_loop range_ balls cs.
Proof.
  induction range_ as [|i range_ IH]; intros balls cs; [reflexivity|].
  cbn [TB2.match_loop TB.filter_loop].
  destruct (nth_error balls i) as [b|]; [|reflexivity].
  change (TB2.findMatch b cs) with (TB._find_match b cs).
  destruct (TB._find_match b cs) as [k|e]; [|reflexivity].
  destruct (k =? -1)%Z; [apply IH|].
  destruct (nth_error cs (Z.to_nat k)) as [c|]; [|reflexivity].
  apply IH.
Qed.

Lemma new_loop_add_loop : forall cs s, TB2.new_loop cs s = TB.add_loop cs s.
Proof. induction cs as [|c cs IH]; intros s; [reflexivity | apply IH]. Qed.

Lemma time_loop_proj {A : Type} (f : Ball.t -> A) (s : TB.t) :
  (forall b ts, f (TB2.get_new_time b ts) = f b) ->
  map f (TB.balls (TB2.time_loop s)) = map f (TB.balls s).
Proof.
  intros Hf. unfold TB2.time_loop. cbn [TB.balls]. rewrite map_map.
  apply map_ext. intros b. apply Hf.
Qed.

(** On a frame with as many detections as tracks, and on any frame while
    there is no track yet, the earlier tracker and the later one do the
    same. *)
Theorem trackers_agree (s : TB.t) (cs : list point) (ts : Z) :
  TB.nb_balls s = length cs \/ (TB.nb_balls s = 0 /\ TB.balls s = []) ->
  TB2.update s cs ts = TB._update s cs ts.
Proof.
  unfold TB2.update, TB2.detect_balls, TB._update, TB._detect_balls.
  cbn [TB.nb_balls TB.balls TB.time TB.score].
  intros [Heq | [Hz Hb]].
  - rewrite Heq, Nat.eqb_refl, Nat.ltb_irrefl, match_loop_filter_loop.
    destruct (TB.filter_loop _ _ _) as [[t c] [[]|e]]; reflexivity.
  - rewrite Hz, Hb. cbn [seq TB.filter_loop TB2.match_loop].
    destruct cs as [|c cs]; [reflexivity|].
    cbn [length Nat.eqb Nat.ltb Nat.leb]. rewrite new_loop_add_loop.
    reflexivity.
Qed.

Lemma trackers_agree_witness :
  TB2.update two_balls [(3, 4); (8, 8)]%Z 2
  = TB._update two_balls [(3, 4); (8, 8)]%Z 2.
Proof.
  apply (trackers_agree two_balls [(3, 4); (8, 8)]%Z 2). left. reflexivity.
Defined.

(** With more detections than tracks the earlier tracker matches nothing:
    it keeps every track where it is and appends one new track for each
    detection of the frame, also for the detections of balls it already
    tracks, so that it ends with [m + n] tracks. *)
Theorem earlier_growth_duplicates (s : TB.t) (cs : list point) (ts : Z) :
  TB.nb_balls s < length cs ->
  snd (TB2.update s cs ts) = Returns tt /\
  TB.positions (fst (TB2.update s cs ts)) = TB.positions s ++ cs /\
  TB.ids (fst (TB2.update s cs ts))
  = TB.ids s ++ seq (TB.nb_balls s + 1) (length cs) /\
  TB.nb_balls (fst (TB2.update s cs ts)) = TB.nb_balls s + length cs.
Proof.
  intros Hlt. unfold TB2.update, TB2.detect_balls.
  cbn [TB.nb_balls TB.balls TB.time TB.score].
  replace (TB.nb_balls s =? length cs) with false
    by (symmetry; apply Nat.eqb_neq; lia).
  replace (TB.nb_balls s <? length cs) with true
    by (symmetry; apply Nat.ltb_lt; lia).
  cbn [fst snd]. split; [reflexivity|].
  rewrite new_loop_add_loop.
  destruct (add_loop_spec cs {| TB.time := ts; TB.score := TB.score s;
                                TB.balls := TB.balls s;
                                TB.nb_balls := TB.nb_balls s |})
    as (news & Hb & Hi & Hp & _ & Hn & _).
  cbn [TB.balls TB.nb_balls TB.time] in *.
  unfold TB.positions, TB.ids.
  rewrite (time_loop_proj Ball.position _ (fun _ _ => eq_refl)).
  rewrite (time_loop_proj Ball.id _ (fun _ _ => eq_refl)).
  rewrite Hb, !map_app, Hi, Hp. cbn [TB2.time_loop TB.nb_balls].
  auto.
Qed.

Lemma earlier_growth_duplicates_witness :
  snd (TB2.update two_balls [(0, 0); (10, 10); (5, 5)]%Z 2) = Returns tt /\
  TB.positions (fst (TB2.update two_balls [(0, 0); (10, 10); (5, 5)]%Z 2))
  = TB.positions two_balls ++ [(0, 0); (10, 10); (5, 5)]%Z /\
  TB.ids (fst (TB2.update two_balls [(0, 0); (10, 10); (5, 5)]%Z 2))
  = TB.ids two_balls ++ seq (TB.nb_balls two_balls + 1) 3 /\
  TB.nb_balls (fst (TB2.update two_balls [(0, 0); (10, 10); (5, 5)]%Z 2))
  = TB.nb_balls two_balls + 3.
Proof.
  apply (earlier_growth_duplicates two_balls [(0, 0); (10, 10); (5, 5)]%Z 2).
  simpl. lia.
Defined.

(** With fewer detections than tracks the earlier tracker looks at no
    detection: it returns, every track keeps its position and only the
    elapsed times follow the time stamp. *)
Theorem earlier_fewer_detections (s : TB.t) (cs : list point) (ts : Z) :
  length cs < TB.nb_balls s ->
  TB2.update s cs ts
  = ({| TB.time := ts; TB.score := TB.score s;
        TB.balls := map (fun b => TB2.get_new_time b ts) (TB.balls s);
        TB.nb_balls := TB.nb_balls s |}, Returns tt) /\
  TB.positions (fst (TB2.update s cs ts)) = TB.positions s.
Proof.
  intros Hlt. unfold TB2.update, TB2.detect_balls.
  cbn [TB.nb_balls TB.balls TB.time TB.score].
  replace (TB.nb_balls s =? length cs) with false
    by (symmetry; apply Nat.eqb_neq; lia).
  replace (TB.nb_balls s <? length cs) with false
    by (symmetry; apply Nat.ltb_ge; lia).
  split; [reflexivity|]. cbn [fst]. unfold TB.positions.
  rewrite (time_loop_proj Ball.position _ (fun _ _ => eq_refl)).
  reflexivity.
Qed.

Lemma earlier_fewer_detections_witness :
  TB2.update two_balls [(9000, 0)]%Z 2
  = ({| TB.time := 2; TB.score := TB.score two_balls;
        TB.balls := map (fun b => TB2.get_new_time b 2) (TB.balls two_balls);
        TB.nb_balls := TB.nb_balls two_balls |}, Returns tt) /\
  TB.positions (fst (TB2.update two_balls [(9000, 0)]%Z 2))
  = TB.positions two_balls.
Proof.
  apply (earlier_fewer_detections two_balls [(9000, 0)]%Z 2). simpl. lia.
Defined.

(** The earlier tracker can raise only on a frame with exactly as many
    detections as tracks. *)
Theorem earlier_raises_only_on_equal_counts
        (s : TB.t) (cs : list point) (ts : Z) (e : exn) :
  snd (TB2.update s cs ts) = Raises e -> TB.nb_balls s = length cs.
Proof.
  unfold TB2.update, TB2.detect_balls.
  cbn [TB.nb_balls TB.balls TB.time TB.score].
  destruct (Nat.eqb_spec (TB.nb_balls s) (length cs)) as [Heq|Hne]; [auto|].
  destruct (TB.nb_balls s <? length cs); discriminate.
Qed.

Lemma earlier_raises_only_on_equal_counts_witness :
  TB.nb_balls two_balls = length [(9000, 0); (0, 9000)]%Z.
Proof.
  apply (earlier_raises_only_on_equal_counts
           two_balls [(9000, 0); (0, 9000)]%Z 2 UnboundLocalError).
  reflexivity.
Defined.

Lemma get_new_time_ids l ts :
  map Ball.id (map (fun b => TB2.get_new_time b ts) l) = map Ball.id l.
Proof. rewrite map_map. reflexivity. Qed.

Lemma earlier_update_ids (s : TB.t) (cs : list point) (ts : Z) :
  counted s ->
  exists k,
    TB.ids (fst (TB2.update s cs ts)) = TB.ids s ++ seq (S (TB.nb_balls s)) k /\
    TB.nb_balls (fst (TB2.update s cs ts)) = TB.nb_balls s + k /\
    counted (fst (TB2.update s cs ts)).
Proof.
  intros Hc. unfold TB2.update, TB2.detect_balls.
  cbn [TB.nb_balls TB.balls TB.time TB.score].
  destruct (TB.nb_balls s =? length cs).
  - rewrite match_loop_filter_loop, (filter_loop_counted s cs Hc).
    destruct (match_all (TB.balls s) cs) as [[t c] o] eqn:Hm.
    apply match_all_shape in Hm. destruct Hm as (Hl & Hi & _).
    exists 0. unfold TB.ids, counted.
    destruct o as [[]|e]; cbn [fst TB2.time_loop TB.balls TB.nb_balls seq];
      rewrite app_nil_r, ?get_new_time_ids, ?length_map;
      (split; [exact Hi | split; [lia | now rewrite Hl]]).
  - destruct (TB.nb_balls s <? length cs).
    + rewrite new_loop_add_loop.
      destruct (add_loop_spec cs {| TB.time := ts; TB.score := TB.score s;
                                    TB.balls := TB.balls s;
                                    TB.nb_balls := TB.nb_balls s |})
        as (news & Hb & Hi & _ & _ & Hn & _).
      cbn [TB.balls TB.nb_balls TB.time] in *.
      exists (length cs). unfold TB.ids, counted.
      cbn [fst TB2.time_loop TB.balls TB.nb_balls].
      rewrite Hb, Hn, get_new_time_ids, length_map, length_app.
      rewrite map_app, Hi, Nat.add_1_r.
      split; [reflexivity|]. split; [reflexivity|].
      rewrite <- (length_map Ball.id news), Hi, length_seq.
      unfold counted in Hc. lia.
    + exists 0. unfold TB.ids, counted.
      cbn [fst TB2.time_loop TB.balls TB.nb_balls seq].
      rewrite app_nil_r, get_new_time_ids, length_map.
      split; [reflexivity|]. split; [lia | exact Hc].
Qed.

(** In the earlier tracker too, over any sequence of updates, the
    identifiers of the tracks are 1, 2, ..., [nb_balls] in creation order
    and [nb_balls] is the number of tracks. *)
Theorem earlier_ids_sequential (s : TB.t) :
  TB2.reachable s ->
  TB.nb_balls s = length (TB.balls s) /\ TB.ids s = seq 1 (TB.nb_balls s).
Proof.
  induction 1 as [ts | s cs ts _ [Hc Hi]].
  - split; reflexivity.
  - destruct (earlier_update_ids s cs ts Hc) as (k & Hk & Hn & Hc').
    split; [exact Hc'|]. rewrite Hk, Hn, Hi, seq_app. reflexivity.
Qed.

Lemma earlier_ids_sequential_witness :
  TB.nb_balls (fst (TB2.update (TB.__init__ 0) [(1, 1); (2, 2)]%Z 1))
  = length (TB.balls (fst (TB2.update (TB.__init__ 0) [(1, 1); (2, 2)]%Z 1)))
  /\
  TB.ids (fst (TB2.update (TB.__init__ 0) [(1, 1); (2, 2)]%Z 1))
  = seq 1 (TB.nb_balls
             (fst (TB2.update (TB.__init__ 0) [(1, 1); (2, 2)]%Z 1))).
Proof.
  apply (earlier_ids_sequential
           (fst (TB2.update (TB.__init__ 0) [(1, 1); (2, 2)]%Z 1))).
  apply TB2.reach_update. apply TB2.reach_init.
Defined.
